(** * auto-versioning: the version manager script, embedded and verified

    This development embeds [scripts/version_manager.py] function by
    function and proves (or refutes) the properties its specification states.

    Modelling conventions.
    - A Python [str] is a list of characters ([list ascii]).  The ASCII range
      behaves as in Python ([lower], [\s], [\d], [int], [strip]); code points
      above 127 are not distinguished further.
    - A Python [int] is a [Z]; the interpreter's configurable limit on the
      length of decimal conversions is not modelled.
    - A version file is represented by the text that [f.read()] returns and
      [f.write()] accepts; the decoding and the newline translation of
      Python's text layer lie below the model.
    - Exceptions, printing and the file system are threaded through a small
      state-and-exception monad [M].  A system call fails when the process
      says so ([mkdir_error], [read_error], [open_error], [write_error]), and
      every effect is a point at which the process can be interrupted
      ([budget]). *)

From Stdlib Require String.
From Stdlib Require Import List Ascii NArith ZArith Lia Bool Arith.
Import ListNotations.

(** ** Text *)

Definition str := list ascii.

Declare Scope str_scope.
Delimit Scope str_scope with str.
#[warnings="-via-type-remapping,-via-type-mismatch"]
String Notation str String.string_of_list_byte String.list_byte_of_string
  (via String.string mapping [[nil] => String.EmptyString, [cons] => String.String])
  : str_scope.

Open Scope list_scope.
Open Scope str_scope.

Definition str_eq_dec : forall a b : str, {a = b} + {a <> b} :=
  list_eq_dec ascii_dec.

Definition str_eqb (a b : str) : bool :=
  if str_eq_dec a b then true else false.

(** The two quote characters of the version patterns. *)
Definition dquote : ascii := "034"%char.
Definition squote : ascii := "039"%char.

Module Py.

(** *** Character classes *)

Definition code (c : ascii) : N := N_of_ascii c.

(** [\d] on the ASCII range. *)
Definition is_digit (c : ascii) : bool :=
  ((48 <=? code c) && (code c <=? 57))%N.

(** [\s] and [str.isspace] on the ASCII range: TAB, LF, VT, FF, CR, the four
    separators 0x1c..0x1f, and the space. *)
Definition is_space (c : ascii) : bool :=
  (((9 <=? code c) && (code c <=? 13)) || ((28 <=? code c) && (code c <=? 32)))%N.

Definition is_upper (c : ascii) : bool :=
  ((65 <=? code c) && (code c <=? 90))%N.

(** *** [str.lower] *)

Definition lower_char (c : ascii) : ascii :=
  if is_upper c then ascii_of_N (code c + 32) else c.

Definition lower (s : str) : str := map lower_char s.

(** *** [sub in s] *)

Fixpoint startswith (p s : str) : bool :=
  match p, s with
  | [], _ => true
  | a :: p', b :: s' => Ascii.eqb a b && startswith p' s'
  | _ :: _, [] => false
  end.

Fixpoint contains (sub s : str) : bool :=
  startswith sub s ||
  match s with
  | [] => false
  | _ :: t => contains sub t
  end.

(** *** [s.split(sep)] for a one-character separator *)

Fixpoint split (sep : ascii) (s : str) : list str :=
  match s with
  | [] => [[]]
  | c :: t =>
      if Ascii.eqb c sep then [] :: split sep t
      else match split sep t with
           | h :: r => (c :: h) :: r
           | [] => [[c]]
           end
  end.

(** *** [s.strip()] *)

Fixpoint lstrip (s : str) : str :=
  match s with
  | c :: t => if is_space c then lstrip t else s
  | [] => []
  end.

Definition strip (s : str) : str := rev (lstrip (rev (lstrip s))).

(** *** [int(s)]: optional surrounding whitespace, optional sign, decimal
    digits, single underscores allowed between digits; [None] stands for
    the [ValueError] that [int] raises. *)

Definition digit_val (c : ascii) : Z := Z.of_N (code c) - 48.

Fixpoint int_digits (acc : Z) (after_digit : bool) (s : str) : option Z :=
  match s with
  | [] => if after_digit then Some acc else None
  | c :: t =>
      if is_digit c then int_digits (10 * acc + digit_val c) true t
      else if Ascii.eqb c "_"
           then (if after_digit then int_digits acc false t else None)
           else None
  end.

Definition int (s : str) : option Z :=
  match strip s with
  | c :: t =>
      if Ascii.eqb c "-" then option_map Z.opp (int_digits 0 false t)
      else if Ascii.eqb c "+" then int_digits 0 false t
      else int_digits 0 false (c :: t)
  | [] => None
  end.

(** The number a string of digits denotes, continuing from [acc]. *)
Definition decimal (acc : Z) (ds : str) : Z :=
  fold_left (fun a c => 10 * a + digit_val c)%Z ds acc.

(** *** [str(n)] for an [int] *)

Definition digit_char (d : N) : ascii := ascii_of_N (48 + d).

Fixpoint digits (fuel : nat) (n : N) : str :=
  match fuel with
  | O => [digit_char (n mod 10)]
  | S f =>
      if (n <? 10)%N then [digit_char n]
      else digits f (n / 10) ++ [digit_char (n mod 10)]
  end.

Definition str_of_N (n : N) : str := digits (N.to_nat (N.log2 n)) n.

Definition str_of_int (z : Z) : str :=
  match z with
  | Zneg p => "-" ++ str_of_N (Npos p)
  | _ => str_of_N (Z.to_N z)
  end.

End Py.

(** ** Exceptions *)

Inductive exn : Type :=
| ValueError (msg : str)
| OSError (msg : str)
| SystemExit (status : Z)
| Interrupted.

(** [except Exception] catches [ValueError] and [OSError]; [SystemExit] and an
    interruption pass through it. *)
Definition is_Exception (e : exn) : bool :=
  match e with
  | ValueError _ | OSError _ => true
  | SystemExit _ | Interrupted => false
  end.

(** [str(e)] as interpolated into messages. *)
Definition exn_message (e : exn) : str :=
  match e with
  | ValueError m | OSError m => m
  | SystemExit z => Py.str_of_int z
  | Interrupted => []
  end.

(** ** The pure functions of the script *)

(** The f-string that renders a version: major, minor and patch joined by
    dots. *)
Definition format_version (major minor patch : Z) : str :=
  Py.str_of_int major ++ "." ++ Py.str_of_int minor ++ "." ++ Py.str_of_int patch.

(** The first three statements of [increment_version]: split at the dots,
    check that there are three parts, convert each with [int]. *)
Definition version_parts (current_version : str) : exn + (Z * Z * Z) :=
  let parts := Py.split "." current_version in
  if negb (length parts =? 3) then
    inl (ValueError ("Invalid version format: " ++ current_version
                       ++ ". Expected MAJOR.MINOR.PATCH"))
  else
    match map Py.int parts with
    | [Some major; Some minor; Some patch] => inr (major, minor, patch)
    | _ => inl (ValueError "invalid literal for int() with base 10")
    end.

(** [increment_version(current_version, increment_type)]: [inl] is the raised
    exception, [inr] the returned string. *)
Definition increment_version (current_version increment_type : str) : exn + str :=
  match version_parts current_version with
  | inl e => inl e
  | inr (major, minor, patch) =>
      if str_eqb increment_type "major" then inr (format_version (major + 1) 0 0)
      else if str_eqb increment_type "minor" then inr (format_version major (minor + 1) 0)
      else if str_eqb increment_type "patch" then inr (format_version major minor (patch + 1))
      else inl (ValueError ("Invalid increment type: " ++ increment_type))
  end.

(** [parse_commit_message_for_increment(commit_message)]; the first [if] of
    the source only executes [pass]. *)
Definition parse_commit_message_for_increment (commit_message : str) : str :=
  let commit_message_lower := Py.lower commit_message in
  if Py.contains "[major]" commit_message_lower then "major"
  else if Py.contains "[minor]" commit_message_lower then "minor"
  else if Py.contains "[patch]" commit_message_lower then "patch"
  else "patch".

(** [should_skip_version_update(commit_message)]. *)
Definition should_skip_version_update (commit_message : str) : bool :=
  let commit_message_lower := Py.lower commit_message in
  if (Py.contains "auto-increment version" commit_message_lower
      || Py.contains "chore: auto-increment" commit_message_lower)
     && negb (existsb (fun marker => Py.contains marker commit_message_lower)
                ["[major]"; "[minor]"; "[patch]"])
  then true
  else false.

(** ** Regular expressions

    The two patterns of the script are sequences of literal characters,
    character classes and greedy repetitions of a class.  [re_match] is the
    backtracking matcher of Python's [re]: a repetition first tries to take
    one more character and gives characters back when the rest of the pattern
    (the continuation [k]) fails. *)

Module Re.

Inductive item : Type :=
| Chr (c : ascii)               (* a literal character *)
| Cls (p : ascii -> bool)       (* one character of a class *)
| Star (p : ascii -> bool).     (* class*, greedy *)

Definition pattern := list item.

Definition lit (s : str) : pattern := map Chr s.

(** [class+] is [class class*]. *)
Definition plus (p : ascii -> bool) : pattern := [Cls p; Star p].

Section Match.
Variable A : Type.

Fixpoint re_match (r : pattern) (s : str) (k : str -> option A) {struct r}
  : option A :=
  match r with
  | [] => k s
  | Chr c :: r' =>
      match s with
      | a :: t => if Ascii.eqb a c then re_match r' t k else None
      | [] => None
      end
  | Cls p :: r' =>
      match s with
      | a :: t => if p a then re_match r' t k else None
      | [] => None
      end
  | Star p :: r' =>
      (fix star (s : str) : option A :=
         match s with
         | a :: t =>
             if p a
             then match star t with
                  | Some x => Some x
                  | None => re_match r' s k
                  end
             else re_match r' s k
         | [] => re_match r' s k
         end) s
  end.

End Match.

Arguments re_match {A} r s k.

(** A match anchored at the start of [s]: the text left after it. *)
Definition match_at (r : pattern) (s : str) : option str :=
  re_match r s (fun rest => Some rest).

(** A match of [pre (grp) post] anchored at the start of [s]: the text of the
    group, as [match.group(1)] returns it. *)
Definition match_group_at (pre grp post : pattern) (s : str) : option str :=
  re_match pre s (fun s1 =>
    re_match grp s1 (fun s2 =>
      re_match post s2 (fun _ =>
        Some (firstn (length s1 - length s2) s1)))).

(** [re.search(pre (grp) post, s)] followed by [.group(1)]: the leftmost
    position at which the pattern matches wins. *)
Fixpoint search_group (pre grp post : pattern) (s : str) : option str :=
  match match_group_at pre grp post s with
  | Some g => Some g
  | None =>
      match s with
      | _ :: t => search_group pre grp post t
      | [] => None
      end
  end.

(** [re.sub(r, repl, s)] for a pattern that matches no empty text and a
    replacement without backslashes: scanning from the left, every match is
    replaced and the scan resumes behind it.  [skip] counts the characters of
    the current match that are still to be passed over. *)
Fixpoint sub_from (r : pattern) (repl : str) (skip : nat) (s : str) : str :=
  match skip with
  | S n =>
      match s with
      | _ :: t => sub_from r repl n t
      | [] => []
      end
  | O =>
      match s with
      | c :: t =>
          match match_at r s with
          | Some rest => repl ++ sub_from r repl (length t - length rest) t
          | None => c :: sub_from r repl 0 t
          end
      | [] => []
      end
  end.

Definition sub (r : pattern) (repl s : str) : str := sub_from r repl 0 s.

(** The texts a pattern denotes, against which the matcher is verified. *)
Fixpoint lang (r : pattern) (m : str) : Prop :=
  match r with
  | [] => m = []
  | Chr c :: r' => exists m', m = c :: m' /\ lang r' m'
  | Cls p :: r' => exists a m', m = a :: m' /\ p a = true /\ lang r' m'
  | Star p :: r' => exists u m', m = u ++ m' /\ forallb p u = true /\ lang r' m'
  end.

(** The repetition loop of [re_match], named. *)
Definition star {A} (p : ascii -> bool) (r : pattern) (k : str -> option A)
  : str -> option A :=
  fix star (s : str) : option A :=
    match s with
    | a :: t =>
        if p a
        then match star t with
             | Some x => Some x
             | None => re_match r s k
             end
        else re_match r s k
    | [] => re_match r s k
    end.

(** A match anchored at the start, as a property of the text. *)
Definition occurs_at (r : pattern) (s : str) : Prop :=
  exists m rest, s = m ++ rest /\ lang r m.

(** The text starts outside the class [p], or is empty: a repetition of [p]
    cannot go on into it. *)
Definition stops (p : ascii -> bool) (rest : str) : Prop :=
  match rest with
  | [] => True
  | b :: _ => p b = false
  end.

(** What every character of a text matched by an item satisfies. *)
Definition item_within (Q : ascii -> Prop) (i : item) : Prop :=
  match i with
  | Chr c => Q c
  | Cls p | Star p => forall a, p a = true -> Q a
  end.

End Re.

(** The character classes of the version patterns. *)
Definition is_quote (c : ascii) : bool := Ascii.eqb c dquote || Ascii.eqb c squote.
Definition not_quote (c : ascii) : bool := negb (is_quote c).

(** [__version__\s*=\s*Q], the common head of both patterns, where [Q] is the
    class of the double and the single quote. *)
Definition assignment_head : Re.pattern :=
  Re.lit "__version__" ++ [Re.Star Py.is_space; Re.Chr "="; Re.Star Py.is_space;
                           Re.Cls is_quote].

(** [\d+\.\d+\.\d+], the group of the pattern that reads the version. *)
Definition version_digits : Re.pattern :=
  Re.plus Py.is_digit ++ [Re.Chr "."] ++ Re.plus Py.is_digit ++ [Re.Chr "."]
    ++ Re.plus Py.is_digit.

(** [__version__\s*=\s*Q[^Q]+Q], the pattern that [re.sub] replaces. *)
Definition assignment_pattern : Re.pattern :=
  assignment_head ++ Re.plus not_quote ++ [Re.Cls is_quote].

(** [re.search] of [__version__\s*=\s*Q(\d+\.\d+\.\d+)Q] in [content],
    followed by [.group(1)]. *)
Definition search_version (content : str) : option str :=
  Re.search_group assignment_head version_digits [Re.Cls is_quote] content.

(** The assignment that is written for a version. *)
Definition assignment (new_version : str) : str :=
  "__version__ = " ++ [dquote] ++ new_version ++ [dquote].

(** [re.sub] of the replaced pattern by the assignment of [new_version];
    the replacement is taken literally, as [re.sub] takes a template without
    backslashes. *)
Definition sub_version (new_version content : str) : str :=
  Re.sub assignment_pattern (assignment new_version) content.

(** ** The process: file system, environment, output and interruption *)

(** What [git log -1 --pretty=%B] does when the script runs it. *)
Inductive git_result : Type :=
| GitOutput (stdout : str)        (* exit status 0 *)
| GitFailed (msg : str)           (* CalledProcessError *)
| GitMissing.                     (* FileNotFoundError: no git executable *)

Record proc : Type := Proc {
  files : str -> option str;      (* path |-> text of the file, if it exists *)
  version_file_env : option str;  (* the environment variable VERSION_FILE *)
  git : git_result;
  mkdir_error : option str;       (* creating the parent directory raises OSError *)
  read_error : option str;        (* opening or decoding for reading raises *)
  open_error : option str;        (* opening for writing raises *)
  write_error : option str;       (* writing the opened file raises *)
  stdout : list str;              (* the lines printed so far *)
  budget : option nat             (* [Some n]: interrupted after [n] more effects *)
}.

Definition with_files (p : proc) (f : str -> option str) : proc :=
  Proc f (version_file_env p) (git p) (mkdir_error p) (read_error p)
       (open_error p) (write_error p) (stdout p) (budget p).

Definition with_stdout (p : proc) (o : list str) : proc :=
  Proc (files p) (version_file_env p) (git p) (mkdir_error p) (read_error p)
       (open_error p) (write_error p) o (budget p).

Definition with_budget (p : proc) (b : option nat) : proc :=
  Proc (files p) (version_file_env p) (git p) (mkdir_error p) (read_error p)
       (open_error p) (write_error p) (stdout p) b.

Definition store (f : str -> option str) (path content : str) : str -> option str :=
  fun q => if str_eq_dec q path then Some content else f q.

(** Computations: state passing with exceptions. *)
Definition M (A : Type) : Type := proc -> (exn + A) * proc.

Definition ret {A} (a : A) : M A := fun p => (inr a, p).

Definition bind {A B} (m : M A) (k : A -> M B) : M B :=
  fun p =>
    match m p with
    | (inr a, p') => k a p'
    | (inl e, p') => (inl e, p')
    end.

Definition raise {A} (e : exn) : M A := fun p => (inl e, p).

Notation "x <- m ;; k" := (bind m (fun x => k))
  (at level 61, m at next level, right associativity).
Notation "m ;; k" := (bind m (fun _ => k))
  (at level 61, right associativity).

(** [try: body except Exception as e: handler(e)]. *)
Definition try_except {A} (body : M A) (handler : exn -> M A) : M A :=
  fun p =>
    match body p with
    | (inl e, p') => if is_Exception e then handler e p' else (inl e, p')
    | r => r
    end.

(** A function that returns or raises without touching the process. *)
Definition lift {A} (r : exn + A) : M A := fun p => (r, p).

(** Every effect is a point at which the process can be interrupted. *)
Definition effect {A} (f : M A) : M A :=
  fun p =>
    match budget p with
    | Some O => (inl Interrupted, p)
    | Some (S n) => f (with_budget p (Some n))
    | None => f p
    end.

Definition print (line : str) : M unit :=
  effect (fun p => (inr tt, with_stdout p (stdout p ++ [line]))).

Definition sys_exit {A} (status : Z) : M A := raise (SystemExit status).

(** [os.environ.get('VERSION_FILE', default)]. *)
Definition environ_get_version_file (default : str) : M str :=
  fun p => (inr (match version_file_env p with Some v => v | None => default end), p).

(** [Path(path).exists()]. *)
Definition path_exists (path : str) : M bool :=
  effect (fun p => (inr (match files p path with Some _ => true | None => false end), p)).

(** [Path(path).parent.mkdir(parents=True, exist_ok=True)]. *)
Definition mkdir_parent (path : str) : M unit :=
  effect (fun p =>
    match mkdir_error p with
    | Some msg => (inl (OSError msg), p)
    | None => (inr tt, p)
    end).

(** [with open(path, 'r', encoding='utf-8') as f: content = f.read()]. *)
Definition read_text (path : str) : M str :=
  effect (fun p =>
    match read_error p with
    | Some msg => (inl (OSError msg), p)
    | None =>
        match files p path with
        | Some content => (inr content, p)
        | None => (inl (OSError "No such file or directory"), p)
        end
    end).

(** [open(path, 'w', encoding='utf-8')]: the file is created or truncated. *)
Definition open_w (path : str) : M unit :=
  effect (fun p =>
    match open_error p with
    | Some msg => (inl (OSError msg), p)
    | None => (inr tt, with_files p (store (files p) path []))
    end).

(** [f.write(data)] and the close at the end of the [with] block. *)
Definition write_close (path data : str) : M unit :=
  effect (fun p =>
    match write_error p with
    | Some msg => (inl (OSError msg), p)
    | None => (inr tt, with_files p (store (files p) path data))
    end).

(** [subprocess.run(['git', 'log', '-1', '--pretty=%B'], ...)]. *)
Definition run_git_log : M git_result :=
  effect (fun p => (inr (git p), p)).

(** ** The effectful functions of the script *)

Definition nl : ascii := "010"%char.

(** [read_current_version(version_file_path)]. *)
Definition read_current_version (version_file_path : str) : M str :=
  ex <- path_exists version_file_path ;;
  if negb ex then ret "0.0.0"
  else
    try_except
      (content <- read_text version_file_path ;;
       match search_version content with
       | Some v => ret v
       | None =>
           print ("Warning: Could not parse version from " ++ version_file_path
                    ++ ", defaulting to 0.0.0") ;;
           ret "0.0.0"
       end)
      (fun e =>
         print ("Error reading version file: " ++ exn_message e
                  ++ ", defaulting to 0.0.0") ;;
         ret "0.0.0").

(** [get_latest_commit_message()]. *)
Definition get_latest_commit_message : M str :=
  r <- run_git_log ;;
  match r with
  | GitOutput out => ret (Py.strip out)
  | GitFailed msg => print ("Error getting commit message: " ++ msg) ;; ret []
  | GitMissing => print "Warning: git not found, cannot read commit message" ;; ret []
  end.

(** The value of [new_content] in [update_version_file], from the text of the
    existing file ([None] when there is no file). *)
Definition new_content (existing : option str) (new_version : str) : str :=
  match existing with
  | Some content =>
      let new_content := sub_version new_version content in
      if str_eqb new_content content
      then assignment new_version ++ [nl]
      else new_content
  | None => assignment new_version ++ [nl]
  end.

(** [update_version_file(version_file_path, new_version)]. *)
Definition update_version_file (version_file_path new_version : str) : M bool :=
  mkdir_parent version_file_path ;;
  try_except
    (ex <- path_exists version_file_path ;;
     existing <- (if ex
                  then content <- read_text version_file_path ;; ret (Some content)
                  else ret None) ;;
     open_w version_file_path ;;
     write_close version_file_path (new_content existing new_version) ;;
     ret true)
    (fun e =>
       print ("Error updating version file: " ++ exn_message e) ;;
       ret false).

(** [main()]. *)
Definition main : M unit :=
  version_file_path <- environ_get_version_file "__version__.py" ;;
  current_version <- read_current_version version_file_path ;;
  print ("Current version: " ++ current_version) ;;
  commit_message <- get_latest_commit_message ;;
  (if should_skip_version_update commit_message
   then print "Skipping version update - commit appears to be an auto-version update" ;;
        sys_exit 0
   else ret tt) ;;
  let increment_type := parse_commit_message_for_increment commit_message in
  print ("Commit message: " ++ firstn 50 commit_message ++ "...") ;;
  print ("Increment type: " ++ increment_type) ;;
  new_version <- lift (increment_version current_version increment_type) ;;
  print ("New version: " ++ new_version) ;;
  updated <- update_version_file version_file_path new_version ;;
  if updated
  then
    print ("Successfully updated " ++ version_file_path ++ " to version " ++ new_version) ;;
    if negb (str_eqb current_version new_version) then sys_exit 0 else sys_exit 1
  else
    print "Failed to update version file" ;;
    sys_exit 1.

(** How the process ends, as its parent observes it. *)
Inductive termination : Type :=
| Exited (status : Z)          (* [sys.exit(status)], or falling off the end *)
| Crashed (e : exn)            (* uncaught exception: traceback, status 1 *)
| Killed.                      (* interrupted *)

Definition termination_of (r : exn + unit) : termination :=
  match r with
  | inr _ => Exited 0
  | inl (SystemExit n) => Exited n
  | inl Interrupted => Killed
  | inl e => Crashed e
  end.


(** Running the script in a process. *)
Definition run_main (p : proc) : termination * proc :=
  let (r, p') := main p in (termination_of r, p').

(** A process with the version file of the default path holding [existing],
    the latest commit message [msg], no failing system call and no
    interruption. *)
Definition quiet (existing : option str) (msg : str) : proc :=
  Proc (fun q => if str_eq_dec q "__version__.py" then existing else None)
       None (GitOutput msg) None None None None [] None.

(** ** The setup tool: [auto_versioning/setup_tool.py] *)

(** The check mark that the setup tool prints, as its UTF-8 bytes. *)
Definition check_mark : str := ["226"; "156"; "147"]%char.

(** [create_version_file(version_file_path, initial_version)]; the whole body
    is inside the [try] block. *)
Definition create_version_file (version_file_path initial_version : str) : M bool :=
  try_except
    (ex <- path_exists version_file_path ;;
     if ex
     then
       print (check_mark ++ " Version file already exists at " ++ version_file_path) ;;
       ret true
     else
       mkdir_parent version_file_path ;;
       open_w version_file_path ;;
       write_close version_file_path (assignment initial_version ++ [nl]) ;;
       print (check_mark ++ " Created version file at " ++ version_file_path
                ++ " with version " ++ initial_version) ;;
       ret true)
    (fun e =>
       print ("Error creating version file: " ++ exn_message e) ;;
       ret false).

(** The default of the parameter [initial_version]. *)
Definition default_initial_version : str := "0.0.0".

(** ** The stress test: [scripts/stress_test_versioning.py]

    The methods of [VersionStressTester] that work on the version file, with
    [self.version_file] as their first argument. *)

(** [read_version(self)]. *)
Definition read_version (version_file : str) : M str :=
  ex <- path_exists version_file ;;
  if negb ex then ret "0.0.0"
  else
    try_except
      (content <- read_text version_file ;;
       match search_version content with
       | Some v => ret v
       | None => ret "0.0.0"
       end)
      (fun e =>
         print ("Error reading version: " ++ exn_message e) ;;
         ret "0.0.0").

(** [set_version(self, version)]. *)
Definition set_version (version_file version : str) : M bool :=
  try_except
    (mkdir_parent version_file ;;
     open_w version_file ;;
     write_close version_file (assignment version ++ [nl]) ;;
     ret true)
    (fun e =>
       print ("Error setting version: " ++ exn_message e) ;;
       ret false).

(** [major, minor, patch = map(int, parts)]: the unpacking takes the values
    one by one, so that a part that [int] rejects raises before a wrong
    number of parts is noticed behind it. *)
Definition unpack3 (values : list (option Z)) : exn + (Z * Z * Z) :=
  let int_error := ValueError "invalid literal for int() with base 10" in
  let not_enough (got : Z) :=
    ValueError ("not enough values to unpack (expected 3, got "
                  ++ Py.str_of_int got ++ ")") in
  match values with
  | [] => inl (not_enough 0%Z)
  | None :: _ => inl int_error
  | [Some _] => inl (not_enough 1%Z)
  | Some _ :: None :: _ => inl int_error
  | [Some _; Some _] => inl (not_enough 2%Z)
  | Some _ :: Some _ :: None :: _ => inl int_error
  | [Some major; Some minor; Some patch] => inr (major, minor, patch)
  | Some _ :: Some _ :: Some _ :: None :: _ => inl int_error
  | Some _ :: Some _ :: Some _ :: Some _ :: _ =>
      inl (ValueError "too many values to unpack (expected 3)")
  end.

(** [calculate_expected_version(self, current, increment_type)]. *)
Definition calculate_expected_version (current increment_type : str) : exn + str :=
  let parts := Py.split "." current in
  match unpack3 (map Py.int parts) with
  | inl e => inl e
  | inr (major, minor, patch) =>
      if str_eqb increment_type "major" then
        inr (Py.str_of_int (major + 1) ++ ".0.0")
      else if str_eqb increment_type "minor" then
        inr (Py.str_of_int major ++ "." ++ Py.str_of_int (minor + 1) ++ ".0")
      else if str_eqb increment_type "patch" then
        inr (Py.str_of_int major ++ "." ++ Py.str_of_int minor ++ "."
               ++ Py.str_of_int (patch + 1))
      else inr current
  end.

(** ** Notions used to state the properties *)


(** [marker] occurs in [msg], in any letter case and at any position. *)
Definition mentions (marker msg : str) : Prop :=
  exists pre occ post, msg = pre ++ occ ++ post /\ Py.lower occ = marker.


(** The whole pattern that [read_current_version] searches for. *)
Definition version_pattern : Re.pattern :=
  assignment_head ++ version_digits ++ [Re.Cls is_quote].

(** A non-empty string of decimal digits. *)
Definition digit_string (d : str) : Prop :=
  d <> [] /\ forallb Py.is_digit d = true.

(** The shape [digits . digits . digits]. *)
Definition version_shaped (v : str) : Prop :=
  exists d1 d2 d3,
    v = d1 ++ "." ++ d2 ++ "." ++ d3
    /\ digit_string d1 /\ digit_string d2 /\ digit_string d3.

(** The head of an assignment: the identifier, optional whitespace around
    the equals sign, and an opening quote of either style. *)
Definition assignment_start (h : str) : Prop :=
  exists ws1 ws2 q,
    h = "__version__" ++ ws1 ++ "=" ++ ws2 ++ [q]
    /\ forallb Py.is_space ws1 = true /\ forallb Py.is_space ws2 = true
    /\ is_quote q = true.

(** A version assignment that [read_current_version] recognises. *)
Definition version_assignment (m : str) : Prop :=
  exists h v q,
    m = h ++ v ++ [q] /\ assignment_start h /\ version_shaped v /\ is_quote q = true.

(** An assignment that [update_version_file] replaces: any non-empty text
    without quotes between the quotes. *)
Definition any_assignment (m : str) : Prop :=
  exists h body q,
    m = h ++ body ++ [q] /\ assignment_start h
    /\ body <> [] /\ forallb not_quote body = true /\ is_quote q = true.

(** [content] holds an assignment of the given kind somewhere. *)
Definition holds (kind : str -> Prop) (content : str) : Prop :=
  exists before m after, content = before ++ m ++ after /\ kind m.

(** *** Observations on a process *)

(** The path that [main] works on. *)
Definition version_file_path_of (p : proc) : str :=
  match version_file_env p with
  | Some v => v
  | None => "__version__.py"
  end.

(** The commit message that [main] works on. *)
Definition commit_message_of (p : proc) : str :=
  match git p with
  | GitOutput out => Py.strip out
  | GitFailed _ | GitMissing => []
  end.

(** The file at [path] after [open(path, 'w')] and [f.write(data)]. *)
Definition written (f : str -> option str) (path data : str) : str -> option str :=
  store (store f path []) path data.

(** The version that an uninterrupted [read_current_version] returns. *)
Definition current_version_of (path : str) (p : proc) : str :=
  match files p path, read_error p with
  | Some content, None =>
      match search_version content with
      | Some v => v
      | None => "0.0.0"
      end
  | _, _ => "0.0.0"
  end.

Definition update_error_line (msg : str) : str := "Error updating version file: " ++ msg.

(** No system call of [update_version_file] on [path] fails. *)
Definition update_can_write (path : str) (p : proc) : Prop :=
  mkdir_error p = None
  /\ (files p path = None \/ read_error p = None)
  /\ open_error p = None /\ write_error p = None.

(** The version of the file as [main] reads it, and the increment [main]
    chooses. *)
Definition current_of (p : proc) : str :=
  current_version_of (version_file_path_of p) p.

Definition increment_type_of (p : proc) : str :=
  parse_commit_message_for_increment (commit_message_of p).

(** A system call of [update_version_file] other than [mkdir] fails. *)
Definition update_fails (p : proc) : Prop :=
  (files p (version_file_path_of p) <> None /\ read_error p <> None)
  \/ open_error p <> None \/ write_error p <> None.


(** The replaced pattern matches at the start of [s]. *)
Definition matches_here (s : str) : Prop := Re.match_at assignment_pattern s <> None.


(** *** Notions for the further properties *)


(** A computation changes no file other than the one at [path]. *)
Definition touches_only (path : str) {A} (m : M A) : Prop :=
  forall p q, q <> path -> files (snd (m p)) q = files p q.




(** ** The functions on a few inputs *)

Example increment_patch : increment_version "1.2.3" "patch" = inr "1.2.4".
Proof. reflexivity. Qed.

Example increment_rollover : increment_version "9.9.9" "major" = inr "10.0.0".
Proof. reflexivity. Qed.

Example increment_minor_99 : increment_version "1.99.7" "minor" = inr "1.100.0".
Proof. reflexivity. Qed.

Example increment_spaces : increment_version " 1 .2_0.+3" "patch" = inr "1.20.4".
Proof. reflexivity. Qed.

Example classify_mixed : parse_commit_message_for_increment "x [PATCH] [Minor] y" = "minor".
Proof. reflexivity. Qed.

Example skip_plain : should_skip_version_update "chore: auto-increment version [skip ci]" = true.
Proof. reflexivity. Qed.

Example skip_marker : should_skip_version_update "chore: auto-increment version [patch]" = false.
Proof. reflexivity. Qed.

Example search_double :
  search_version ("# v" ++ "__version__ = " ++ [dquote] ++ "1.2.3" ++ [dquote])
  = Some "1.2.3".
Proof. reflexivity. Qed.

Example search_single_spaced :
  search_version ("__version__  =" ++ [squote] ++ "10.0.27" ++ [squote] ++ " # x") = Some "10.0.27".
Proof. reflexivity. Qed.

Example search_malformed :
  search_version ("__version__ = " ++ [dquote] ++ "1.2" ++ [dquote]) = None.
Proof. reflexivity. Qed.

Example sub_twice :
  sub_version "2.0.0" ("a" ++ assignment "x" ++ "b" ++ assignment "1.0.0" ++ "c")
  = "a" ++ assignment "2.0.0" ++ "b" ++ assignment "2.0.0" ++ "c".
Proof. reflexivity. Qed.

(** Malformed segments are no match; the search is over the whole text, so
    the whitespace around the equals sign may hold line breaks. *)
Example search_letters :
  search_version ("__version__ = " ++ [dquote] ++ "a.b.c" ++ [dquote]) = None.
Proof. reflexivity. Qed.

Example search_suffix :
  search_version ("__version__ = " ++ [dquote] ++ "1.2.3-beta" ++ [dquote]) = None.
Proof. reflexivity. Qed.

Example search_four_parts :
  search_version ("__version__ = " ++ [dquote] ++ "1.2.3.4" ++ [dquote]) = None.
Proof. reflexivity. Qed.

Example search_across_lines :
  search_version ("__version__" ++ [nl] ++ "=" ++ [nl] ++ [squote] ++ "1.2.3" ++ [dquote])
  = Some "1.2.3".
Proof. reflexivity. Qed.

(** The scenarios of the specification, run through [main]. *)
Definition outcome (p : proc) : termination * option str :=
  (fst (run_main p), files (snd (run_main p)) "__version__.py").

Example scenario_minor :
  outcome (quiet (Some (assignment "1.2.3" ++ [nl])) "Fix bug [minor] [skip ci]")
  = (Exited 0, Some (assignment "1.3.0" ++ [nl])).
Proof. reflexivity. Qed.

Example scenario_rollover :
  outcome (quiet (Some (assignment "9.9.9" ++ [nl])) "release [major]")
  = (Exited 0, Some (assignment "10.0.0" ++ [nl])).
Proof. reflexivity. Qed.

Example scenario_skip :
  outcome (quiet (Some (assignment "1.0.0" ++ [nl])) "chore: auto-increment version [skip ci]")
  = (Exited 0, Some (assignment "1.0.0" ++ [nl])).
Proof. reflexivity. Qed.

Example scenario_marker_overrides_guard :
  outcome (quiet (Some (assignment "1.0.0" ++ [nl])) "chore: auto-increment version [patch]")
  = (Exited 0, Some (assignment "1.0.1" ++ [nl])).
Proof. reflexivity. Qed.

Example scenario_missing_file :
  outcome (quiet None "first commit") = (Exited 0, Some (assignment "0.0.1" ++ [nl])).
Proof. reflexivity. Qed.

Example scenario_keeps_surroundings :
  outcome (quiet (Some ("# header" ++ [nl] ++ assignment "1.2.3" ++ [nl] ++ "x = 1" ++ [nl]))
             "fix")
  = (Exited 0, Some ("# header" ++ [nl] ++ assignment "1.2.4" ++ [nl] ++ "x = 1" ++ [nl])).
Proof. reflexivity. Qed.

Example scenario_open_fails :
  fst (run_main (Proc (fun _ => None) None (GitOutput "fix") None None
                      (Some "[Errno 13] Permission denied") None [] None))
  = Exited 1.
Proof. reflexivity. Qed.
(** ** Facts about the text primitives *)

Lemma str_eqb_eq (a b : str) : str_eqb a b = true <-> a = b.
Proof. unfold str_eqb; destruct (str_eq_dec a b); split; congruence. Qed.


Module PyFacts.
Import Py.

Lemma startswith_app (p r : str) : startswith p (p ++ r) = true.
Proof.
  induction p as [|a p IH]; simpl; [reflexivity|].
  now rewrite Ascii.eqb_refl, IH.
Qed.

Lemma startswith_inv (p s : str) :
  startswith p s = true -> exists r, s = p ++ r.
Proof.
  revert s; induction p as [|a p IH]; intros s H; simpl in *.
  - now exists s.
  - destruct s as [|b s]; [discriminate|].
    apply andb_prop in H as [Hab Hp].
    apply Ascii.eqb_eq in Hab; subst b.
    destruct (IH _ Hp) as [r ->]. now exists r.
Qed.

Lemma contains_startswith (sub s : str) :
  startswith sub s = true -> contains sub s = true.
Proof. destruct s; simpl; intros ->; reflexivity. Qed.

(** [sub in s] holds exactly when [s] splits around an occurrence of [sub]. *)
Lemma contains_spec (sub s : str) :
  contains sub s = true <-> exists l r, s = l ++ sub ++ r.
Proof.
  split.
  - induction s as [|c s IH]; simpl; intros H.
    + rewrite orb_false_r in H. apply startswith_inv in H as [r ->].
      now exists [], r.
    + apply orb_prop in H as [H|H].
      * apply startswith_inv in H as [r ->]. now exists [], r.
      * destruct (IH H) as (l & r & ->). now exists (c :: l), r.
  - intros (l & r & ->). induction l as [|c l IH]; simpl.
    + apply contains_startswith, startswith_app.
    + now rewrite IH, orb_true_r.
Qed.

Lemma lower_app (a b : str) : lower (a ++ b) = lower a ++ lower b.
Proof. apply map_app. Qed.

(** Decimal digits. *)

Lemma digit_char_is_digit (d : N) : (d < 10)%N -> is_digit (digit_char d) = true.
Proof.
  intros H. assert (d = 0 \/ d = 1 \/ d = 2 \/ d = 3 \/ d = 4 \/ d = 5 \/ d = 6
                    \/ d = 7 \/ d = 8 \/ d = 9)%N as C by lia.
  repeat (destruct C as [-> | C]; [reflexivity|]). now subst.
Qed.

Lemma digit_val_char (d : N) : (d < 10)%N -> digit_val (digit_char d) = Z.of_N d.
Proof.
  intros H. assert (d = 0 \/ d = 1 \/ d = 2 \/ d = 3 \/ d = 4 \/ d = 5 \/ d = 6
                    \/ d = 7 \/ d = 8 \/ d = 9)%N as C by lia.
  repeat (destruct C as [-> | C]; [reflexivity|]). now subst.
Qed.

Lemma int_digits_decimal (ds : str) :
  forall acc b, forallb is_digit ds = true -> ds <> [] \/ b = true ->
    int_digits acc b ds = Some (decimal acc ds).
Proof.
  induction ds as [|c ds IH]; intros acc b Hd Hne; simpl in *.
  - destruct Hne as [Hne | ->]; [congruence | reflexivity].
  - apply andb_prop in Hd as [Hc Hd]. rewrite Hc. apply IH; auto.
Qed.

Lemma digits_spec (f : nat) :
  forall n, (n < 2 ^ N.succ (N.of_nat f))%N ->
    forallb is_digit (digits f n) = true /\ digits f n <> []
    /\ decimal 0 (digits f n) = Z.of_N n.
Proof.
  induction f as [|f IH]; intros n Hn.
  - simpl in Hn. assert (n mod 10 = n)%N as E by (apply N.mod_small; lia).
    cbn [digits]. rewrite E. repeat split.
    + simpl. rewrite digit_char_is_digit by lia. reflexivity.
    + discriminate.
    + unfold decimal; cbn [fold_left]. rewrite digit_val_char by lia. lia.
  - cbn [digits]. destruct (N.ltb_spec n 10) as [Hlt | Hge].
    + repeat split.
      * simpl. rewrite digit_char_is_digit by lia. reflexivity.
      * discriminate.
      * unfold decimal; cbn [fold_left]. rewrite digit_val_char by lia. lia.
    + assert (n / 10 < 2 ^ N.succ (N.of_nat f))%N as Hq.
      { apply N.Div0.div_lt_upper_bound.
        rewrite Nat2N.inj_succ, N.pow_succ_r' in Hn. lia. }
      destruct (IH _ Hq) as (Hall & Hne & Hval).
      assert (n mod 10 < 10)%N as Hm by (apply N.mod_lt; lia).
      repeat split.
      * rewrite forallb_app, Hall. simpl.
        rewrite digit_char_is_digit by assumption. reflexivity.
      * intros E. apply app_eq_nil in E as [_ E]. discriminate.
      * unfold decimal in *. rewrite fold_left_app, Hval. cbn [fold_left].
        rewrite digit_val_char by assumption.
        pose proof (N.Div0.div_mod n 10). lia.
Qed.

Lemma str_of_N_spec (n : N) :
  forallb is_digit (str_of_N n) = true /\ str_of_N n <> []
  /\ decimal 0 (str_of_N n) = Z.of_N n.
Proof.
  apply digits_spec. rewrite N2Nat.id.
  destruct n as [|p]; [reflexivity|]. apply N.log2_spec. lia.
Qed.


Ltac leb_cases :=
  repeat match goal with
         | |- context [N.leb ?a ?b] => destruct (N.leb_spec a b)
         | H : context [N.leb ?a ?b] |- _ => destruct (N.leb_spec a b)
         end;
  simpl in *; try discriminate; try reflexivity; try lia.

Lemma is_digit_not_space (c : ascii) : is_digit c = true -> is_space c = false.
Proof. unfold is_digit, is_space. intros H. leb_cases. Qed.

Lemma is_digit_code (c : ascii) :
  is_digit c = true <-> (48 <= code c <= 57)%N.
Proof. unfold is_digit. split; intros H; leb_cases. Qed.

Lemma is_digit_neq (c d : ascii) :
  is_digit c = true -> is_digit d = false -> Ascii.eqb c d = false.
Proof.
  intros Hc Hd. destruct (Ascii.eqb_spec c d) as [-> | ]; congruence.
Qed.

Lemma lstrip_nonspace (c : ascii) (t : str) :
  is_space c = false -> lstrip (c :: t) = c :: t.
Proof. intros H; simpl; now rewrite H. Qed.

Lemma strip_id (s : str) (c c' : ascii) (t t' : str) :
  s = c :: t -> rev s = c' :: t' -> is_space c = false -> is_space c' = false ->
  strip s = s.
Proof.
  intros Hs Hr Hc Hc'. unfold strip.
  rewrite Hs, (lstrip_nonspace c t Hc), <- Hs, Hr, (lstrip_nonspace c' t' Hc'), <- Hr.
  apply rev_involutive.
Qed.

Lemma forallb_rev {A} (f : A -> bool) (l : list A) :
  forallb f l = true -> forallb f (rev l) = true.
Proof.
  rewrite !forallb_forall. intros H x Hx. apply H. now apply in_rev.
Qed.

Lemma strip_digits (ds : str) :
  forallb is_digit ds = true -> strip ds = ds.
Proof.
  intros H. destruct ds as [|c t] eqn:E; [reflexivity|]. rewrite <- E in *.
  pose proof (forallb_rev _ _ H) as Hr.
  destruct (rev ds) as [|c' t'] eqn:Er.
  { apply (f_equal (@rev _)) in Er. rewrite rev_involutive in Er.
    simpl in Er. congruence. }
  apply (strip_id ds c c' t t'); auto.
  - rewrite E in H. simpl in H. apply andb_prop in H as [H _].
    now apply is_digit_not_space.
  - simpl in Hr. apply andb_prop in Hr as [Hr _]. now apply is_digit_not_space.
Qed.

(** [int] reads back what [str] prints. *)
Lemma int_digit_string (ds : str) :
  forallb is_digit ds = true -> ds <> [] -> int ds = Some (decimal 0 ds).
Proof.
  intros H Hne. unfold int. rewrite (strip_digits _ H).
  destruct ds as [|c t]; [congruence|].
  assert (is_digit c = true) as Hc by (simpl in H; now apply andb_prop in H).
  rewrite (is_digit_neq c "-" Hc eq_refl), (is_digit_neq c "+" Hc eq_refl).
  apply int_digits_decimal; [exact H | left; discriminate].
Qed.

Lemma int_str_of_int (z : Z) : int (str_of_int z) = Some z.
Proof.
  destruct z as [|p|p]; unfold str_of_int.
  - reflexivity.
  - destruct (str_of_N_spec (Z.to_N (Z.pos p))) as (Hall & Hne & Hval).
    now rewrite (int_digit_string _ Hall Hne), Hval.
  - destruct (str_of_N_spec (N.pos p)) as (Hall & Hne & Hval).
    set (ds := str_of_N (N.pos p)) in *.
    assert (strip ("-" ++ ds) = "-" ++ ds) as Hs.
    { pose proof (forallb_rev _ _ Hall) as Hr.
      destruct (rev ds) as [|c' t'] eqn:Er.
      { apply (f_equal (@rev _)) in Er. rewrite rev_involutive in Er.
        simpl in Er. congruence. }
      apply (strip_id _ "-"%char c' ds (t' ++ ["-"%char])).
      - reflexivity.
      - simpl. now rewrite Er.
      - reflexivity.
      - simpl in Hr. apply andb_prop in Hr as [Hr _].
        now apply is_digit_not_space. }
    unfold int. rewrite Hs. simpl.
    rewrite (int_digits_decimal ds 0 false Hall (or_introl Hne)), Hval.
    reflexivity.
Qed.

(** [split] at a separator that the pieces do not contain. *)
Lemma split_no_sep (sep : ascii) (s : str) :
  ~ In sep s -> split sep s = [s].
Proof.
  induction s as [|c t IH]; intros H; simpl; [reflexivity|].
  destruct (Ascii.eqb_spec c sep) as [-> | Hne].
  - exfalso; apply H; now left.
  - rewrite IH; [reflexivity|]. intros Hin; apply H; now right.
Qed.

Lemma split_app_sep (sep : ascii) (a b : str) :
  ~ In sep a -> split sep (a ++ sep :: b) = a :: split sep b.
Proof.
  induction a as [|c t IH]; intros H; simpl.
  - now rewrite Ascii.eqb_refl.
  - destruct (Ascii.eqb_spec c sep) as [-> | Hne].
    + exfalso; apply H; now left.
    + rewrite IH; [reflexivity|]. intros Hin; apply H; now right.
Qed.

Lemma digits_no_dot (ds : str) : forallb is_digit ds = true -> ~ In "."%char ds.
Proof.
  intros H Hin. rewrite forallb_forall in H. specialize (H _ Hin). discriminate.
Qed.

Lemma str_of_int_no_dot (z : Z) : ~ In "."%char (str_of_int z).
Proof.
  destruct z as [|p|p]; unfold str_of_int.
  - simpl. intros [H|[]]; discriminate.
  - apply digits_no_dot, str_of_N_spec.
  - simpl. intros [H|H]; [discriminate|].
    revert H. apply digits_no_dot, str_of_N_spec.
Qed.

End PyFacts.

Lemma version_parts_format (a b c : Z) :
  version_parts (format_version a b c) = inr (a, b, c).
Proof.
  unfold version_parts, format_version. cbn [app].
  rewrite PyFacts.split_app_sep by apply PyFacts.str_of_int_no_dot.
  rewrite PyFacts.split_app_sep by apply PyFacts.str_of_int_no_dot.
  rewrite PyFacts.split_no_sep by apply PyFacts.str_of_int_no_dot.
  cbn [length Nat.eqb negb map]. now rewrite !PyFacts.int_str_of_int.
Qed.

(** Case-insensitive occurrence, as the script tests it. *)
Lemma contains_lower_iff (marker msg : str) :
  Py.contains marker (Py.lower msg) = true <-> mentions marker msg.
Proof.
  rewrite PyFacts.contains_spec. unfold mentions, Py.lower. split.
  - intros (l & r & H).
    apply map_eq_app in H as (pre & rest & -> & Hl & H).
    apply map_eq_app in H as (occ & post & -> & Ho & Hp).
    now exists pre, occ, post.
  - intros (pre & occ & post & -> & H).
    exists (map Py.lower_char pre), (map Py.lower_char post).
    now rewrite !map_app, H.
Qed.

Lemma contains_lower_false (marker msg : str) :
  Py.contains marker (Py.lower msg) = false <-> ~ mentions marker msg.
Proof.
  rewrite <- contains_lower_iff. destruct (Py.contains marker (Py.lower msg)).
  - split; [discriminate | intros H; now elim H].
  - split; [intros _; discriminate | reflexivity].
Qed.


(** ** The matcher against the language of a pattern *)

Module ReFacts.
Import Re.

Lemma re_match_star {A} p r s (k : str -> option A) :
  re_match (Star p :: r) s k = star p r k s.
Proof. reflexivity. Qed.

Lemma star_cons {A} p r (k : str -> option A) a t :
  star p r k (a :: t) =
  if p a
  then match star p r k t with
       | Some x => Some x
       | None => re_match r (a :: t) k
       end
  else re_match r (a :: t) k.
Proof. reflexivity. Qed.

Lemma star_nil {A} p r (k : str -> option A) :
  star p r k [] = re_match r [] k.
Proof. reflexivity. Qed.

(** Soundness: a successful match consumed a text of the language and
    handed the rest to the continuation. *)
Lemma re_match_sound {A} (r : pattern) :
  forall (s : str) (k : str -> option A) (x : A),
    re_match r s k = Some x ->
    exists m rest, s = m ++ rest /\ lang r m /\ k rest = Some x.
Proof.
  induction r as [|i r IH]; intros s k x H.
  - exists [], s. simpl in H. now repeat split.
  - destruct i as [c | p | p].
    + destruct s as [|a t]; [discriminate|]. simpl in H.
      destruct (Ascii.eqb_spec a c) as [-> | ]; [|discriminate].
      destruct (IH _ _ _ H) as (m & rest & -> & Hm & Hk).
      exists (c :: m), rest. repeat split; auto. now exists m.
    + destruct s as [|a t]; [discriminate|]. simpl in H.
      destruct (p a) eqn:Hp; [|discriminate].
      destruct (IH _ _ _ H) as (m & rest & -> & Hm & Hk).
      exists (a :: m), rest. repeat split; auto. now exists a, m.
    + rewrite re_match_star in H.
      assert (forall s', re_match r s' k = Some x ->
                exists m rest, s' = m ++ rest /\ lang (Star p :: r) m
                               /\ k rest = Some x) as Base.
      { intros s' H'. destruct (IH _ _ _ H') as (m & rest & -> & Hm & Hk).
        exists m, rest. repeat split; auto. now exists [], m. }
      induction s as [|a t IHs].
      * now apply Base.
      * rewrite star_cons in H. destruct (p a) eqn:Hp; [|now apply Base].
        destruct (star p r k t) as [y|] eqn:Hs; [|now apply Base].
        injection H as ->.
        destruct (IHs eq_refl) as (m & rest & -> & (u & m' & -> & Hu & Hm') & Hk).
        exists (a :: u ++ m'), rest. repeat split; auto.
        exists (a :: u), m'. repeat split; auto. simpl. now rewrite Hp, Hu.
Qed.

(** Completeness: where the language has a text that the continuation
    accepts, the matcher finds a match (the first in its own order). *)
Lemma re_match_complete {A} (r : pattern) :
  forall (m rest : str) (k : str -> option A),
    lang r m -> k rest <> None -> re_match r (m ++ rest) k <> None.
Proof.
  induction r as [|i r IH]; intros m rest k Hm Hk.
  - simpl in Hm. now subst.
  - destruct i as [c | p | p].
    + destruct Hm as (m' & -> & Hm'). simpl. rewrite Ascii.eqb_refl. now apply IH.
    + destruct Hm as (a & m' & -> & Hp & Hm'). simpl. rewrite Hp. now apply IH.
    + destruct Hm as (u & m' & -> & Hu & Hm'). rewrite re_match_star.
      rewrite <- app_assoc.
      induction u as [|a u IHu].
      * simpl app. specialize (IH _ _ _ Hm' Hk).
        destruct (m' ++ rest) as [|a t]; [exact IH|].
        rewrite star_cons. destruct (p a); [|exact IH].
        destruct (star p r k t); [discriminate | exact IH].
      * simpl in Hu. apply andb_prop in Hu as [Hp Hu].
        simpl app. rewrite star_cons, Hp.
        specialize (IHu Hu).
        destruct (star p r k (u ++ m' ++ rest)); [discriminate | contradiction].
Qed.

(** An anchored match exists exactly when a text of the language is a prefix. *)
Lemma match_at_sound (r : pattern) (s rest : str) :
  match_at r s = Some rest -> exists m, s = m ++ rest /\ lang r m.
Proof.
  intros H. apply re_match_sound in H as (m & rest' & -> & Hm & Hk).
  injection Hk as ->. now exists m.
Qed.

Lemma match_at_complete (r : pattern) (m rest : str) :
  lang r m -> match_at r (m ++ rest) <> None.
Proof. intros H. apply re_match_complete; [assumption | discriminate]. Qed.

(** The language of a concatenation. *)
Lemma lang_app (r1 r2 : pattern) :
  forall m, lang (r1 ++ r2) m <->
            exists m1 m2, m = m1 ++ m2 /\ lang r1 m1 /\ lang r2 m2.
Proof.
  induction r1 as [|i r1 IH]; intros m.
  - simpl. split.
    + intros H. now exists [], m.
    + intros (m1 & m2 & -> & -> & H). exact H.
  - destruct i as [c | p | p]; simpl; split.
    + intros (m' & -> & H). apply IH in H as (m1 & m2 & -> & H1 & H2).
      exists (c :: m1), m2. repeat split; auto. now exists m1.
    + intros (m1 & m2 & -> & (m' & -> & H1) & H2).
      exists (m' ++ m2). split; auto. apply IH. now exists m', m2.
    + intros (a & m' & -> & Hp & H). apply IH in H as (m1 & m2 & -> & H1 & H2).
      exists (a :: m1), m2. repeat split; auto. now exists a, m1.
    + intros (m1 & m2 & -> & (a & m' & -> & Hp & H1) & H2).
      exists a, (m' ++ m2). repeat split; auto. apply IH. now exists m', m2.
    + intros (u & m' & -> & Hu & H). apply IH in H as (m1 & m2 & -> & H1 & H2).
      exists (u ++ m1), m2. split; [now rewrite <- app_assoc|].
      split; [now exists u, m1 | assumption].
    + intros (m1 & m2 & -> & (u & m' & -> & Hu & H1) & H2).
      exists u, (m' ++ m2). split; [now rewrite <- app_assoc|].
      split; [assumption|]. apply IH. now exists m', m2.
Qed.

Lemma lang_lit (l m : str) : lang (lit l) m <-> m = l.
Proof.
  revert m; induction l as [|c l IH]; intros m; simpl.
  - reflexivity.
  - split.
    + intros (m' & -> & H). apply IH in H. now subst.
    + intros ->. exists l. split; auto. now apply IH.
Qed.

(** Every character of a matched text lies within the items of the pattern. *)
Lemma lang_within (Q : ascii -> Prop) (r : pattern) :
  Forall (item_within Q) r -> forall m, lang r m -> Forall Q m.
Proof.
  induction 1 as [|i r Hi Hr IH]; intros m Hm.
  - simpl in Hm. subst. constructor.
  - destruct i as [c | p | p]; simpl in *.
    + destruct Hm as (m' & -> & H). constructor; auto.
    + destruct Hm as (a & m' & -> & Hp & H). constructor; auto.
    + destruct Hm as (u & m' & -> & Hu & H). apply Forall_app. split; auto.
      rewrite forallb_forall in Hu. apply Forall_forall. auto.
Qed.


Lemma firstn_length_app (a b : str) :
  firstn (length (a ++ b) - length b) (a ++ b) = a.
Proof.
  rewrite length_app. replace (length a + length b - length b) with (length a) by lia.
  rewrite firstn_app, Nat.sub_diag, firstn_all. simpl. apply app_nil_r.
Qed.

(** The group of a match is a text of the group's language, between texts of
    the languages around it. *)
Lemma match_group_at_sound (pre grp post : pattern) (s g : str) :
  match_group_at pre grp post s = Some g ->
  exists m1 m3 rest,
    s = m1 ++ g ++ m3 ++ rest /\ lang pre m1 /\ lang grp g /\ lang post m3.
Proof.
  unfold match_group_at. intros H.
  apply re_match_sound in H as (m1 & s1 & -> & H1 & H).
  apply re_match_sound in H as (m2 & s2 & -> & H2 & H).
  apply re_match_sound in H as (m3 & rest & -> & H3 & H).
  injection H as <-. rewrite firstn_length_app.
  now exists m1, m3, rest.
Qed.

Lemma match_group_at_occurs (pre grp post : pattern) (s : str) :
  match_group_at pre grp post s <> None <-> occurs_at (pre ++ grp ++ post) s.
Proof.
  split.
  - destruct (match_group_at pre grp post s) as [g|] eqn:E; [|congruence].
    intros _. apply match_group_at_sound in E as (m1 & m3 & rest & -> & H1 & H2 & H3).
    exists (m1 ++ g ++ m3), rest. split.
    + now rewrite <- !app_assoc.
    + apply lang_app. exists m1, (g ++ m3). repeat split; auto.
      apply lang_app. now exists g, m3.
  - intros (m & rest & -> & Hm).
    apply lang_app in Hm as (m1 & m' & -> & H1 & Hm).
    apply lang_app in Hm as (m2 & m3 & -> & H2 & H3).
    unfold match_group_at. rewrite <- !app_assoc.
    apply re_match_complete; [assumption|].
    apply re_match_complete; [assumption|].
    apply re_match_complete; [assumption|]. discriminate.
Qed.

(** [re.search]: the result comes from a match at some position, and there is
    no result only if no position has a match. *)
Lemma search_group_sound (pre grp post : pattern) (s g : str) :
  search_group pre grp post s = Some g ->
  exists before from, s = before ++ from /\ match_group_at pre grp post from = Some g.
Proof.
  induction s as [|c t IH]; simpl; intros H.
  - destruct (match_group_at pre grp post []) eqn:E; [|discriminate].
    injection H as ->. now exists [], [].
  - destruct (match_group_at pre grp post (c :: t)) eqn:E.
    + injection H as ->. now exists [], (c :: t).
    + destruct (IH H) as (before & from & -> & Hm). now exists (c :: before), from.
Qed.


Lemma search_group_here (pre grp post : pattern) (s g : str) :
  match_group_at pre grp post s = Some g -> search_group pre grp post s = Some g.
Proof. intros H. destruct s; simpl; now rewrite H. Qed.

Lemma search_group_skip (pre grp post : pattern) (c : ascii) (t : str) :
  match_group_at pre grp post (c :: t) = None ->
  search_group pre grp post (c :: t) = search_group pre grp post t.
Proof. intros H. simpl. now rewrite H. Qed.

(** [re.sub]: unfolding the scan. *)
Lemma sub_from_skip (r : pattern) (repl u rest : str) :
  sub_from r repl (length u) (u ++ rest) = sub_from r repl 0 rest.
Proof. induction u as [|a u IH]; [reflexivity | exact IH]. Qed.

Lemma sub_nil (r : pattern) (repl : str) : sub r repl [] = [].
Proof. reflexivity. Qed.

Lemma sub_no_match (r : pattern) (repl : str) (c : ascii) (t : str) :
  match_at r (c :: t) = None -> sub r repl (c :: t) = c :: sub r repl t.
Proof. intros H. unfold sub. simpl. now rewrite H. Qed.

Lemma sub_match (r : pattern) (repl m rest : str) :
  m <> [] -> match_at r (m ++ rest) = Some rest ->
  sub r repl (m ++ rest) = repl ++ sub r repl rest.
Proof.
  intros Hne H. destruct m as [|c m]; [congruence|].
  unfold sub. simpl app in *. cbn [sub_from]. rewrite H.
  rewrite length_app. replace (length m + length rest - length rest) with (length m) by lia.
  now rewrite sub_from_skip.
Qed.

(** Matching a literal prefix. *)
Lemma re_match_lit {A} (l : str) (r : pattern) (s : str) (k : str -> option A) :
  re_match (lit l ++ r) (l ++ s) k = re_match r s k.
Proof.
  induction l as [|c l IH]; [reflexivity|]. simpl. now rewrite Ascii.eqb_refl.
Qed.

(** A greedy repetition that runs into a character outside its class, where
    the rest of the pattern succeeds, gives nothing back. *)
Lemma star_greedy {A} p r (k : str -> option A) (u rest : str) (x : A) :
  forallb p u = true -> stops p rest -> re_match r rest k = Some x ->
  re_match (Star p :: r) (u ++ rest) k = Some x.
Proof.
  intros Hu Hs Hx. rewrite re_match_star.
  induction u as [|a u IH]; simpl app.
  - destruct rest as [|b t]; [exact Hx|]. rewrite star_cons.
    simpl in Hs. now rewrite Hs.
  - simpl in Hu. apply andb_prop in Hu as [Ha Hu].
    rewrite star_cons, Ha, (IH Hu). reflexivity.
Qed.

Lemma plus_greedy {A} p r (k : str -> option A) a (u rest : str) (x : A) :
  p a = true -> forallb p u = true -> stops p rest -> re_match r rest k = Some x ->
  re_match (plus p ++ r) (a :: u ++ rest) k = Some x.
Proof.
  intros Ha Hu Hs Hx. unfold plus. simpl app.
  change (re_match (Cls p :: Star p :: r) (a :: u ++ rest) k)
    with (if p a then re_match (Star p :: r) (u ++ rest) k else None).
  rewrite Ha. now apply star_greedy.
Qed.

End ReFacts.

(** ** The two version patterns *)

Lemma digit_string_cons (d : str) :
  digit_string d <->
  exists a u, d = a :: u /\ Py.is_digit a = true /\ forallb Py.is_digit u = true.
Proof.
  unfold digit_string. split.
  - intros [Hne H]. destruct d as [|a u]; [congruence|].
    simpl in H. apply andb_prop in H as [Ha Hu]. now exists a, u.
  - intros (a & u & -> & Ha & Hu). split; [discriminate|]. simpl. now rewrite Ha, Hu.
Qed.

Lemma lang_version_digits (g : str) :
  Re.lang version_digits g <-> version_shaped g.
Proof.
  unfold version_shaped. split.
  - intros H. cbn in H.
    destruct H as (a1 & ? & -> & Ha1 & u1 & ? & -> & Hu1 & ? & -> &
                   a2 & ? & -> & Ha2 & u2 & ? & -> & Hu2 & ? & -> &
                   a3 & ? & -> & Ha3 & u3 & ? & -> & Hu3 & ->).
    exists (a1 :: u1), (a2 :: u2), (a3 :: u3). rewrite app_nil_r.
    repeat split; try discriminate; simpl;
      rewrite ?Ha1, ?Ha2, ?Ha3, ?Hu1, ?Hu2, ?Hu3; reflexivity.
  - intros (d1 & d2 & d3 & -> & H1 & H2 & H3).
    apply digit_string_cons in H1 as (a1 & u1 & -> & Ha1 & Hu1).
    apply digit_string_cons in H2 as (a2 & u2 & -> & Ha2 & Hu2).
    apply digit_string_cons in H3 as (a3 & u3 & -> & Ha3 & Hu3).
    cbn.
    exists a1, (u1 ++ "." ++ (a2 :: u2) ++ "." ++ a3 :: u3). repeat split; auto.
    exists u1, ("." ++ (a2 :: u2) ++ "." ++ a3 :: u3). repeat split; auto.
    eexists. split; [reflexivity|].
    exists a2, (u2 ++ "." ++ a3 :: u3). repeat split; auto.
    exists u2, ("." ++ a3 :: u3). repeat split; auto.
    eexists. split; [reflexivity|].
    exists a3, u3. repeat split; auto.
    exists u3, []. repeat split; auto. now rewrite app_nil_r.
Qed.

Lemma lang_assignment_head (h : str) :
  Re.lang assignment_head h <-> assignment_start h.
Proof.
  unfold assignment_head, assignment_start.
  rewrite ReFacts.lang_app. split.
  - intros (m1 & m2 & -> & H1 & H2). apply ReFacts.lang_lit in H1 as ->.
    cbn in H2.
    destruct H2 as (ws1 & ? & -> & Hw1 & ? & -> & ws2 & ? & -> & Hw2 &
                    q & ? & -> & Hq & ->).
    now exists ws1, ws2, q.
  - intros (ws1 & ws2 & q & -> & Hw1 & Hw2 & Hq).
    exists "__version__", (ws1 ++ "=" ++ ws2 ++ [q]). split; [reflexivity|].
    split; [now apply ReFacts.lang_lit|]. cbn.
    exists ws1, ("=" ++ ws2 ++ [q]). repeat split; auto.
    eexists. split; [reflexivity|].
    exists ws2, [q]. repeat split; auto.
    exists q, []. repeat split; auto.
Qed.

Lemma lang_quote (m : str) :
  Re.lang [Re.Cls is_quote] m <-> exists q, m = [q] /\ is_quote q = true.
Proof.
  cbn. split.
  - intros (q & ? & -> & Hq & ->). now exists q.
  - intros (q & -> & Hq). now exists q, [].
Qed.

Lemma lang_plus_not_quote (body : str) :
  Re.lang (Re.plus not_quote) body <-> body <> [] /\ forallb not_quote body = true.
Proof.
  cbn. split.
  - intros (a & ? & -> & Ha & u & ? & -> & Hu & ->). rewrite app_nil_r.
    split; [discriminate|]. simpl. now rewrite Ha, Hu.
  - intros [Hne H]. destruct body as [|a u]; [congruence|].
    simpl in H. apply andb_prop in H as [Ha Hu].
    exists a, u. repeat split; auto. exists u, []. now rewrite app_nil_r.
Qed.

(** The search pattern denotes the version assignments. *)
Lemma lang_version_pattern (m : str) :
  Re.lang version_pattern m <-> version_assignment m.
Proof.
  unfold version_pattern, version_assignment.
  rewrite ReFacts.lang_app. split.
  - intros (h & m' & -> & Hh & H). apply ReFacts.lang_app in H as (v & e & -> & Hv & He).
    apply lang_quote in He as (q & -> & Hq).
    exists h, v, q. repeat split; auto.
    + now apply lang_assignment_head.
    + now apply lang_version_digits.
  - intros (h & v & q & -> & Hh & Hv & Hq).
    exists h, (v ++ [q]). repeat split; auto.
    + now apply lang_assignment_head.
    + apply ReFacts.lang_app. exists v, [q]. repeat split; auto.
      * now apply lang_version_digits.
      * apply lang_quote. now exists q.
Qed.

(** The replaced pattern denotes the assignments of any quoted text. *)
Lemma lang_assignment_pattern (m : str) :
  Re.lang assignment_pattern m <-> any_assignment m.
Proof.
  unfold assignment_pattern, any_assignment.
  rewrite ReFacts.lang_app. split.
  - intros (h & m' & -> & Hh & H). apply ReFacts.lang_app in H as (b & e & -> & Hb & He).
    apply lang_quote in He as (q & -> & Hq).
    apply lang_plus_not_quote in Hb as [Hne Hb].
    exists h, b, q. repeat split; auto. now apply lang_assignment_head.
  - intros (h & b & q & -> & Hh & Hne & Hb & Hq).
    exists h, (b ++ [q]). repeat split; auto.
    + now apply lang_assignment_head.
    + apply ReFacts.lang_app. exists b, [q]. repeat split; auto.
      * now apply lang_plus_not_quote.
      * apply lang_quote. now exists q.
Qed.

(** Digits and dots are not quotes, underscores or whitespace. *)
Lemma is_digit_not_quote (a : ascii) : Py.is_digit a = true -> not_quote a = true.
Proof.
  intros H. unfold not_quote, is_quote.
  destruct (Ascii.eqb_spec a dquote) as [-> | _]; [discriminate|].
  destruct (Ascii.eqb_spec a squote) as [-> | _]; [discriminate|]. reflexivity.
Qed.

Lemma version_shaped_not_quote (v : str) :
  version_shaped v -> v <> [] /\ forallb not_quote v = true.
Proof.
  intros (d1 & d2 & d3 & -> & [N1 H1] & [N2 H2] & [N3 H3]). split.
  - destruct d1; [congruence | discriminate].
  - rewrite !forallb_app. simpl.
    assert (forall d, forallb Py.is_digit d = true -> forallb not_quote d = true) as E.
    { intros d Hd. rewrite forallb_forall in *. intros x Hx.
      apply is_digit_not_quote; auto. }
    now rewrite (E _ H1), (E _ H2), (E _ H3).
Qed.

(** Whatever the search recognises, the substitution replaces. *)
Lemma version_assignment_any (m : str) : version_assignment m -> any_assignment m.
Proof.
  intros (h & v & q & -> & Hh & Hv & Hq).
  apply version_shaped_not_quote in Hv as [Hne Hv].
  now exists h, v, q.
Qed.

(** *** The search finds a freshly written assignment *)

Lemma re_match_assignment_head {A} (k : str -> option A) (s : str) (x : A) :
  k s = Some x ->
  Re.re_match assignment_head ("__version__ = " ++ dquote :: s) k = Some x.
Proof.
  intros Hk. unfold assignment_head.
  change ("__version__ = " ++ dquote :: s)
    with ("__version__" ++ (" " ++ "="%char :: " " ++ dquote :: s)).
  rewrite ReFacts.re_match_lit.
  apply ReFacts.star_greedy; [reflexivity | reflexivity |].
  change (Re.re_match [Re.Chr "="; Re.Star Py.is_space; Re.Cls is_quote]
            ("="%char :: " " ++ dquote :: s) k)
    with (Re.re_match [Re.Star Py.is_space; Re.Cls is_quote] (" " ++ dquote :: s) k).
  apply ReFacts.star_greedy; [reflexivity | reflexivity |].
  exact Hk.
Qed.

Lemma re_match_version_digits {A} (k : str -> option A) (v rest : str) (x : A) :
  version_shaped v -> Re.stops Py.is_digit rest -> k rest = Some x ->
  Re.re_match version_digits (v ++ rest) k = Some x.
Proof.
  intros (d1 & d2 & d3 & -> & H1 & H2 & H3) Hs Hk.
  apply digit_string_cons in H1 as (a1 & u1 & -> & Ha1 & Hu1).
  apply digit_string_cons in H2 as (a2 & u2 & -> & Ha2 & Hu2).
  apply digit_string_cons in H3 as (a3 & u3 & -> & Ha3 & Hu3).
  unfold version_digits. rewrite <- !app_assoc. simpl app.
  apply (ReFacts.plus_greedy Py.is_digit); auto; [reflexivity|].
  change (Re.re_match (Re.plus Py.is_digit ++ [Re.Chr "."] ++ Re.plus Py.is_digit)
            (a2 :: u2 ++ "."%char :: a3 :: u3 ++ rest) k = Some x).
  apply (ReFacts.plus_greedy Py.is_digit); auto; [reflexivity|].
  change (Re.re_match (Re.plus Py.is_digit ++ []) (a3 :: u3 ++ rest) k = Some x).
  apply (ReFacts.plus_greedy Py.is_digit); auto.
Qed.

Lemma match_group_at_assignment (v after : str) :
  version_shaped v ->
  Re.match_group_at assignment_head version_digits [Re.Cls is_quote]
    (assignment v ++ after) = Some v.
Proof.
  intros Hv. unfold Re.match_group_at, assignment.
  rewrite <- !app_assoc.
  change ("__version__ = " ++ [dquote] ++ v ++ [dquote] ++ after)
    with ("__version__ = " ++ dquote :: (v ++ dquote :: after)).
  apply re_match_assignment_head.
  apply re_match_version_digits; [assumption | reflexivity |].
  simpl. now rewrite ReFacts.firstn_length_app.
Qed.

Lemma search_version_assignment (v after : str) :
  version_shaped v -> search_version (assignment v ++ after) = Some v.
Proof.
  intros Hv. apply ReFacts.search_group_here. now apply match_group_at_assignment.
Qed.

(** *** What the texts of the two languages look like *)

Lemma any_assignment_identifier (m : str) :
  any_assignment m -> exists m', m = "__version__" ++ m'.
Proof.
  intros (h & b & q & -> & (ws1 & ws2 & q1 & -> & _) & _).
  eexists. rewrite <- !app_assoc. reflexivity.
Qed.

Lemma forallb_not_in (p : ascii -> bool) (c : ascii) (l : str) :
  forallb p l = true -> p c = false -> ~ In c l.
Proof.
  intros H Hc Hin. rewrite forallb_forall in H. specialize (H _ Hin). congruence.
Qed.

Lemma is_quote_not_underscore (q : ascii) : is_quote q = true -> q <> "_"%char.
Proof. intros H ->. discriminate. Qed.

(** Behind the identifier, a recognised assignment has no underscore. *)
Lemma version_assignment_identifier (m : str) :
  version_assignment m ->
  exists m', m = "__version__" ++ m' /\ ~ In "_"%char m'.
Proof.
  intros (h & v & q & -> & (ws1 & ws2 & q1 & -> & Hw1 & Hw2 & Hq1) & Hv & Hq).
  destruct Hv as (d1 & d2 & d3 & -> & [_ H1] & [_ H2] & [_ H3]).
  eexists. split; [rewrite <- !app_assoc; reflexivity|].
  rewrite !in_app_iff. simpl.
  pose proof (forallb_not_in _ "_"%char _ Hw1 eq_refl).
  pose proof (forallb_not_in _ "_"%char _ Hw2 eq_refl).
  pose proof (forallb_not_in _ "_"%char _ H1 eq_refl).
  pose proof (forallb_not_in _ "_"%char _ H2 eq_refl).
  pose proof (forallb_not_in _ "_"%char _ H3 eq_refl).
  pose proof (is_quote_not_underscore _ Hq1).
  pose proof (is_quote_not_underscore _ Hq).
  intuition (try discriminate; try congruence).
Qed.

(** *** Two facts about overlapping texts *)

(** If the identifier is found again after a non-empty prefix, then what
    follows the first identifier ends, within the common part, with the
    underscore that closes the second. *)
Lemma identifier_overlap (P y s' : str) :
  P <> [] -> P ++ "__version__" ++ y = "__version__" ++ s' ->
  exists w, s' = w ++ "_"%char :: y
            /\ forall x, P ++ "__version__" ++ x = "__version__" ++ w ++ "_"%char :: x.
Proof.
  intros HP E.
  change ("__version__" ++ y) with ("__version_" ++ "_"%char :: y) in E.
  assert (length P + length y = length s') as Hlen.
  { apply (f_equal (@length _)) in E. rewrite !length_app in E. simpl in E. lia. }
  rewrite app_assoc in E.
  assert ((P ++ "__version_") ++ "_"%char :: y = ((P ++ "__version_") ++ ["_"%char]) ++ y)
    as E1 by (rewrite <- (app_assoc _ ["_"%char] y); reflexivity).
  rewrite E1 in E. apply app_eq_app in E as [l [[E2 E3] | [E2 E3]]].
  - assert (l <> []) as Hl.
    { intros ->. apply (f_equal (@length _)) in E2. rewrite !length_app in E2.
      simpl in E2. destruct P; [congruence | simpl in E2; lia]. }
    destruct (exists_last Hl) as (w & e & ->).
    rewrite app_assoc in E2. apply app_inj_tail in E2 as [E2 <-].
    exists w. split.
    + rewrite E3, <- app_assoc. reflexivity.
    + intros x.
      change ("__version__" ++ x) with ("__version_" ++ "_"%char :: x).
      rewrite app_assoc, E2, <- app_assoc. reflexivity.
  - (* the identifier would be longer than prefix and identifier together *)
    apply (f_equal (@length _)) in E2. rewrite !length_app in E2. simpl in E2.
    destruct P; [congruence | simpl in E2; lia].
Qed.

(** A text without [b] that starts where [w b y] starts ends before the [b]. *)
Lemma prefix_before (b : ascii) (m rest w y : str) :
  ~ In b m -> m ++ rest = w ++ b :: y -> exists w', w = m ++ w'.
Proof.
  revert w. induction m as [|a m IH]; intros w Hb E.
  - now exists w.
  - destruct w as [|a' w]; simpl in E; injection E as -> E.
    + exfalso. apply Hb. now left.
    + destruct (IH w) as [w' ->]; auto.
      * intros Hin. apply Hb. now right.
      * now exists w'.
Qed.

(** *** The substitution *)

Lemma sub_version_nil (v : str) : sub_version v [] = [].
Proof. reflexivity. Qed.

Lemma sub_version_no_match (v : str) (c : ascii) (t : str) :
  Re.match_at assignment_pattern (c :: t) = None ->
  sub_version v (c :: t) = c :: sub_version v t.
Proof. apply ReFacts.sub_no_match. Qed.

Lemma sub_version_match (v s rest : str) :
  Re.match_at assignment_pattern s = Some rest ->
  exists m, s = m ++ rest /\ any_assignment m
            /\ sub_version v s = assignment v ++ sub_version v rest.
Proof.
  intros H. destruct (ReFacts.match_at_sound _ _ _ H) as (m & -> & Hm).
  apply lang_assignment_pattern in Hm.
  exists m. repeat split; auto.
  apply ReFacts.sub_match; auto.
  destruct (any_assignment_identifier _ Hm) as [m' ->]. discriminate.
Qed.


(** The result agrees with the input up to and including the identifier of
    the first replaced assignment. *)
Lemma sub_version_agree (v t : str) :
  sub_version v t = t
  \/ exists pre x y, t = pre ++ "__version__" ++ x
                     /\ sub_version v t = pre ++ "__version__" ++ y.
Proof.
  induction t as [|c t IH]; [now left|].
  destruct (Re.match_at assignment_pattern (c :: t)) as [rest|] eqn:E.
  - right. destruct (sub_version_match v _ _ E) as (m & Hs & Hm & ->).
    destruct (any_assignment_identifier _ Hm) as [m' ->].
    exists [], (m' ++ rest), (" = " ++ [dquote] ++ v ++ [dquote] ++ sub_version v rest).
    split.
    + now rewrite Hs, <- app_assoc.
    + unfold assignment. now rewrite <- !app_assoc.
  - rewrite (sub_version_no_match v _ _ E).
    destruct IH as [Hs | (pre & x & y & Ht & Hs)]; [left; now rewrite Hs|].
    right. exists (c :: pre), x, y. now rewrite Hs, Ht at 1.
Qed.

(** A position that the substitution passed over does not become a match of
    the search pattern. *)
Lemma no_match_after_sub (v : str) (c : ascii) (t : str) :
  Re.match_at assignment_pattern (c :: t) = None ->
  Re.match_group_at assignment_head version_digits [Re.Cls is_quote]
    (c :: sub_version v t) = None.
Proof.
  intros Hnone.
  destruct (Re.match_group_at _ _ _ (c :: sub_version v t)) as [g|] eqn:E;
    [exfalso | reflexivity].
  assert (Re.occurs_at version_pattern (c :: sub_version v t)) as Hocc.
  { apply ReFacts.match_group_at_occurs. unfold version_pattern in *. congruence. }
  assert (Re.occurs_at version_pattern (c :: t)) as Hocc'.
  { destruct (sub_version_agree v t) as [Hs | (pre & x & y & Ht & Hs)];
      [now rewrite Hs in Hocc|].
    rewrite Hs in Hocc. rewrite Ht.
    destruct Hocc as (m & rest & Em & Hm).
    apply lang_version_pattern in Hm.
    destruct (version_assignment_identifier _ Hm) as (m' & -> & Hu).
    change (c :: pre ++ "__version__" ++ y) with ((c :: pre) ++ "__version__" ++ y) in Em.
    rewrite <- app_assoc in Em.
    destruct (identifier_overlap (c :: pre) y _ ltac:(discriminate) Em)
      as (w & Ew & Hx).
    destruct (prefix_before _ _ _ _ _ Hu Ew) as (w' & ->).
    exists ("__version__" ++ m'), (w' ++ "_"%char :: x). split.
    - change (c :: pre ++ "__version__" ++ x) with ((c :: pre) ++ "__version__" ++ x).
      rewrite Hx, <- !app_assoc. reflexivity.
    - now apply lang_version_pattern. }
  destruct Hocc' as (m & rest & Em & Hm).
  apply lang_version_pattern, version_assignment_any, lang_assignment_pattern in Hm.
  apply (ReFacts.match_at_complete _ _ rest) in Hm. rewrite <- Em in Hm. congruence.
Qed.

(** After the substitution, the search finds the new version, provided
    something was there to replace. *)
Lemma search_after_sub (v content : str) :
  version_shaped v ->
  (exists before from, content = before ++ from /\ matches_here from) ->
  search_version (sub_version v content) = Some v.
Proof.
  intros Hv. induction content as [|c t IH]; intros (before & from & E & Hm).
  - destruct before; [|discriminate]. simpl in E. subst from. now elim Hm.
  - destruct (Re.match_at assignment_pattern (c :: t)) as [rest|] eqn:Ec.
    + destruct (sub_version_match v _ _ Ec) as (m & _ & _ & ->).
      now apply search_version_assignment.
    + rewrite (sub_version_no_match v _ _ Ec). unfold search_version.
      rewrite ReFacts.search_group_skip by now apply no_match_after_sub.
      apply IH. destruct before as [|b before]; simpl in E.
      * subst from. now elim Hm.
      * injection E as -> ->. now exists before, from.
Qed.

Lemma sub_version_changed (v content : str) :
  sub_version v content <> content ->
  exists before from, content = before ++ from /\ matches_here from.
Proof.
  induction content as [|c t IH]; intros H; [now elim H|].
  destruct (Re.match_at assignment_pattern (c :: t)) as [rest|] eqn:Ec.
  - exists [], (c :: t). split; [reflexivity|]. unfold matches_here. congruence.
  - rewrite (sub_version_no_match v _ _ Ec) in H.
    destruct IH as (before & from & -> & Hm); [congruence|].
    now exists (c :: before), from.
Qed.

(** Whatever the file held, the text that [update_version_file] writes reads
    back as the new version. *)
Lemma search_version_new_content (existing : option str) (v : str) :
  version_shaped v -> search_version (new_content existing v) = Some v.
Proof.
  intros Hv. unfold new_content.
  destruct existing as [content|]; [|now apply search_version_assignment].
  destruct (str_eqb (sub_version v content) content) eqn:E.
  - now apply search_version_assignment.
  - apply search_after_sub; [assumption|]. apply (sub_version_changed v).
    intros H. apply str_eqb_eq in H. congruence.
Qed.

(** ** Versions as text *)

Lemma digit_string_str_of_int (z : Z) : (0 <= z)%Z -> digit_string (Py.str_of_int z).
Proof.
  intros Hz. destruct z as [|p|p]; [| |lia]; unfold Py.str_of_int.
  - destruct (PyFacts.str_of_N_spec (Z.to_N 0)) as (H0 & N0 & _). now split.
  - destruct (PyFacts.str_of_N_spec (Z.to_N (Z.pos p))) as (H1 & N1 & _). now split.
Qed.

(** The canonical text of a version with non-negative components has the
    shape that the search pattern captures. *)
Lemma format_version_shaped (a b c : Z) :
  (0 <= a)%Z -> (0 <= b)%Z -> (0 <= c)%Z -> version_shaped (format_version a b c).
Proof.
  intros Ha Hb Hc. exists (Py.str_of_int a), (Py.str_of_int b), (Py.str_of_int c).
  split; [reflexivity|]. auto using digit_string_str_of_int.
Qed.

Lemma decimal_nonneg (ds : str) :
  forall acc, (0 <= acc)%Z -> forallb Py.is_digit ds = true -> (0 <= Py.decimal acc ds)%Z.
Proof.
  induction ds as [|c ds IH]; intros acc Hacc H; [exact Hacc|].
  simpl in H. apply andb_prop in H as [Hc H].
  unfold Py.decimal. cbn [fold_left]. apply IH; [|exact H].
  apply PyFacts.is_digit_code in Hc. unfold Py.digit_val. lia.
Qed.

(** A text of that shape splits into three parts that [int] accepts, with
    non-negative values. *)
Lemma version_parts_shaped (v : str) :
  version_shaped v ->
  exists a b c : Z,
    version_parts v = inr (a, b, c) /\ (0 <= a)%Z /\ (0 <= b)%Z /\ (0 <= c)%Z.
Proof.
  intros (d1 & d2 & d3 & -> & [N1 H1] & [N2 H2] & [N3 H3]).
  exists (Py.decimal 0 d1), (Py.decimal 0 d2), (Py.decimal 0 d3).
  split; [|auto using decimal_nonneg, Z.le_refl].
  unfold version_parts. cbn [app].
  rewrite PyFacts.split_app_sep by now apply PyFacts.digits_no_dot.
  rewrite PyFacts.split_app_sep by now apply PyFacts.digits_no_dot.
  rewrite PyFacts.split_no_sep by now apply PyFacts.digits_no_dot.
  cbn [length Nat.eqb negb map].
  now rewrite !PyFacts.int_digit_string.
Qed.

(** The three increment types, and that [increment_version] returns for each
    of them on a well-shaped version. *)
Lemma increment_version_shaped (v ty : str) :
  version_shaped v -> ty = "major" \/ ty = "minor" \/ ty = "patch" ->
  exists a b c a' b' c' : Z,
    version_parts v = inr (a, b, c)
    /\ increment_version v ty = inr (format_version a' b' c')
    /\ (0 <= a' /\ 0 <= b' /\ 0 <= c')%Z
    /\ (a', b', c') <> (a, b, c).
Proof.
  intros Hv Hty. destruct (version_parts_shaped v Hv) as (a & b & c & E & Ha & Hb & Hc).
  unfold increment_version. rewrite E.
  destruct Hty as [-> | [-> | ->]].
  - exists a, b, c, (a + 1)%Z, 0%Z, 0%Z. repeat split; try lia.
    intros H; injection H; lia.
  - exists a, b, c, a, (b + 1)%Z, 0%Z. repeat split; try lia.
    intros H; injection H; lia.
  - exists a, b, c, a, b, (c + 1)%Z. repeat split; try lia.
    intros H; injection H; lia.
Qed.

Lemma parse_commit_message_for_increment_cases (msg : str) :
  let ty := parse_commit_message_for_increment msg in
  ty = "major" \/ ty = "minor" \/ ty = "patch".
Proof.
  unfold parse_commit_message_for_increment.
  destruct (Py.contains "[major]" _); [now left|].
  destruct (Py.contains "[minor]" _); [right; now left|].
  destruct (Py.contains "[patch]" _); right; now right.
Qed.

(** What the search returns was captured from a recognised assignment. *)
Lemma search_version_sound (content v : str) :
  search_version content = Some v ->
  version_shaped v /\ holds version_assignment content.
Proof.
  intros H. apply ReFacts.search_group_sound in H as (before & from & -> & H).
  apply ReFacts.match_group_at_sound in H as (m1 & m3 & rest & -> & H1 & H2 & H3).
  apply lang_assignment_head in H1. apply lang_version_digits in H2.
  apply lang_quote in H3 as (q & -> & Hq).
  split; [assumption|].
  exists before, (m1 ++ v ++ [q]), rest. split.
  - now rewrite <- !app_assoc.
  - now exists m1, v, q.
Qed.


(** ** Running the script *)

Ltac exec :=
  repeat progress
    (unfold bind, ret, raise, lift, effect, print, sys_exit, try_except,
       path_exists, mkdir_parent, read_text, open_w, write_close, run_git_log,
       environ_get_version_file, version_file_path_of, commit_message_of,
       update_can_write, update_fails, current_of, increment_type_of in *;
     cbn [with_files with_stdout with_budget files version_file_env git
          mkdir_error read_error open_error write_error stdout budget
          is_Exception exn_message negb fst snd termination_of] in *).

Lemma store_same (f : str -> option str) (path data : str) :
  store f path data path = Some data.
Proof. unfold store. destruct (str_eq_dec path path); congruence. Qed.

Lemma store_other (f : str -> option str) (path data q : str) :
  q <> path -> store f path data q = f q.
Proof. unfold store. intros H. destruct (str_eq_dec q path); congruence. Qed.

Lemma written_same (f : str -> option str) (path data : str) :
  written f path data path = Some data.
Proof. apply store_same. Qed.

Lemma written_other (f : str -> option str) (path data q : str) :
  q <> path -> written f path data q = f q.
Proof. intros H. unfold written. now rewrite !store_other. Qed.

(** *** [read_current_version] *)

Lemma read_missing (path : str) (p : proc) :
  budget p = None -> files p path = None ->
  read_current_version path p = (inr "0.0.0", p).
Proof.
  intros Hb Hf. destruct p as [f env g me re oe we out b]; simpl in *; subst.
  unfold read_current_version. repeat (progress exec || rewrite Hf).
  reflexivity.
Qed.

Lemma read_found (path content v : str) (p : proc) :
  budget p = None -> files p path = Some content -> read_error p = None ->
  search_version content = Some v ->
  read_current_version path p = (inr v, p).
Proof.
  intros Hb Hf Hr Hs. destruct p as [f env g me re oe we out b]; simpl in *; subst.
  unfold read_current_version. repeat (progress exec || rewrite Hf || rewrite Hs).
  reflexivity.
Qed.

Lemma read_unparsed (path content : str) (p : proc) :
  budget p = None -> files p path = Some content -> read_error p = None ->
  search_version content = None ->
  read_current_version path p =
  (inr "0.0.0",
   with_stdout p (stdout p ++ ["Warning: Could not parse version from " ++ path
                                 ++ ", defaulting to 0.0.0"])).
Proof.
  intros Hb Hf Hr Hs. destruct p as [f env g me re oe we out b]; simpl in *; subst.
  unfold read_current_version. repeat (progress exec || rewrite Hf || rewrite Hs).
  reflexivity.
Qed.

Lemma read_failed (path content msg : str) (p : proc) :
  budget p = None -> files p path = Some content -> read_error p = Some msg ->
  read_current_version path p =
  (inr "0.0.0",
   with_stdout p (stdout p ++ ["Error reading version file: " ++ msg
                                 ++ ", defaulting to 0.0.0"])).
Proof.
  intros Hb Hf Hr. destruct p as [f env g me re oe we out b]; simpl in *; subst.
  unfold read_current_version. repeat (progress exec || rewrite Hf).
  reflexivity.
Qed.

Lemma zero_version_shaped : version_shaped "0.0.0".
Proof. exists "0", "0", "0". repeat split; discriminate. Qed.

Lemma current_version_of_shaped (path : str) (p : proc) :
  version_shaped (current_version_of path p).
Proof.
  unfold current_version_of.
  destruct (files p path) as [content|]; [|apply zero_version_shaped].
  destruct (read_error p); [apply zero_version_shaped|].
  destruct (search_version content) as [v|] eqn:E; [|apply zero_version_shaped].
  now apply search_version_sound in E.
Qed.

(** An uninterrupted [read_current_version] always returns, and only prints. *)
Lemma read_current_version_run (path : str) (p : proc) :
  budget p = None ->
  exists out,
    read_current_version path p =
    (inr (current_version_of path p), with_stdout p (stdout p ++ out)).
Proof.
  intros Hb. unfold current_version_of.
  destruct (files p path) as [content|] eqn:Hf.
  - destruct (read_error p) as [msg|] eqn:Hr.
    + eexists. eapply read_failed; eassumption.
    + destruct (search_version content) as [v|] eqn:Hs.
      * exists []. rewrite (read_found path content v p) by assumption.
        destruct p as [f env g me re oe we out b]; exec. now rewrite app_nil_r.
      * eexists. eapply read_unparsed; eassumption.
  - exists []. rewrite read_missing by assumption.
    destruct p as [f env g me re oe we out b]; exec. now rewrite app_nil_r.
Qed.

(** *** [get_latest_commit_message] *)

Lemma get_latest_commit_message_run (p : proc) :
  budget p = None ->
  exists out,
    get_latest_commit_message p =
    (inr (commit_message_of p), with_stdout p (stdout p ++ out)).
Proof.
  intros Hb. destruct p as [f env g me re oe we out b]; simpl in *; subst.
  unfold get_latest_commit_message.
  destruct g; exec.
  - exists []. now rewrite app_nil_r.
  - eexists. reflexivity.
  - eexists. reflexivity.
Qed.

(** *** [update_version_file] *)

Lemma update_ok (path v : str) (p : proc) :
  budget p = None -> update_can_write path p ->
  update_version_file path v p =
  (inr true, with_files p (written (files p) path (new_content (files p path) v))).
Proof.
  intros Hb (Hm & Hr & Ho & Hw). destruct p as [f env g me re oe we out b]; simpl in *; subst.
  unfold update_version_file. exec.
  destruct (f path) as [content|] eqn:Hf; repeat (progress exec || rewrite Hf).
  - destruct Hr as [Hr | ->]; [discriminate | reflexivity].
  - reflexivity.
Qed.

Lemma update_mkdir_fails (path v msg : str) (p : proc) :
  budget p = None -> mkdir_error p = Some msg ->
  update_version_file path v p = (inl (OSError msg), p).
Proof.
  intros Hb Hm. destruct p as [f env g me re oe we out b]; simpl in *; subst.
  unfold update_version_file. exec. reflexivity.
Qed.

Lemma update_read_fails (path v content msg : str) (p : proc) :
  budget p = None -> mkdir_error p = None ->
  files p path = Some content -> read_error p = Some msg ->
  update_version_file path v p =
  (inr false, with_stdout p (stdout p ++ [update_error_line msg])).
Proof.
  intros Hb Hm Hf Hr. destruct p as [f env g me re oe we out b]; simpl in *; subst.
  unfold update_version_file. repeat (progress exec || rewrite Hf). reflexivity.
Qed.

Lemma update_open_fails (path v msg : str) (p : proc) :
  budget p = None -> mkdir_error p = None ->
  files p path = None \/ read_error p = None -> open_error p = Some msg ->
  update_version_file path v p =
  (inr false, with_stdout p (stdout p ++ [update_error_line msg])).
Proof.
  intros Hb Hm Hf Ho. destruct p as [f env g me re oe we out b]; simpl in *; subst.
  unfold update_version_file. exec.
  destruct (f path) as [content|] eqn:E; repeat (progress exec || rewrite E).
  - destruct Hf as [Hf | ->]; [discriminate|]. reflexivity.
  - reflexivity.
Qed.

(** A failing write leaves the file truncated. *)
Lemma update_write_fails (path v msg : str) (p : proc) :
  budget p = None -> mkdir_error p = None ->
  files p path = None \/ read_error p = None -> open_error p = None ->
  write_error p = Some msg ->
  update_version_file path v p =
  (inr false,
   with_stdout (with_files p (store (files p) path []))
     (stdout p ++ [update_error_line msg])).
Proof.
  intros Hb Hm Hf Ho Hw. destruct p as [f env g me re oe we out b]; simpl in *; subst.
  unfold update_version_file. exec.
  destruct (f path) as [content|] eqn:E; repeat (progress exec || rewrite E).
  - destruct Hf as [Hf | ->]; [discriminate|]. reflexivity.
  - reflexivity.
Qed.


(** *** [main] *)

(** On a version as [read_current_version] returns it and an increment type
    as [parse_commit_message_for_increment] returns it, [increment_version]
    returns a version text different from the one it was given. *)
Lemma increment_version_changes (v ty : str) :
  version_shaped v -> ty = "major" \/ ty = "minor" \/ ty = "patch" ->
  exists new, increment_version v ty = inr new /\ version_shaped new /\ new <> v.
Proof.
  intros Hv Hty.
  destruct (increment_version_shaped v ty Hv Hty)
    as (a & b & c & a' & b' & c' & Hp & Hi & (Ha & Hb & Hc) & Hne).
  exists (format_version a' b' c'). repeat split; auto.
  - now apply format_version_shaped.
  - intros E. rewrite <- E, version_parts_format in Hp. congruence.
Qed.

Ltac step_read :=
  match goal with
  | |- context [read_current_version ?path ?q] =>
      let out := fresh "out" in
      let E := fresh "E" in
      destruct (read_current_version_run path q eq_refl) as [out E];
      rewrite E; clear E
  end.

Ltac step_git :=
  match goal with
  | |- context [get_latest_commit_message ?q] =>
      let out := fresh "out" in
      let E := fresh "E" in
      destruct (get_latest_commit_message_run q eq_refl) as [out E];
      rewrite E; clear E
  end.

(** The loop guard: the script exits with status 0 and writes nothing. *)
Lemma main_skip (p : proc) :
  budget p = None ->
  should_skip_version_update (commit_message_of p) = true ->
  fst (main p) = inl (SystemExit 0) /\ files (snd (main p)) = files p.
Proof.
  intros Hb Hs. destruct p as [f env g me re oe we out b]; simpl in *; subst.
  unfold main. exec. step_read. exec. step_git. exec.
  rewrite Hs. exec. now split.
Qed.

Lemma next_version_exists (p : proc) :
  exists new,
    increment_version (current_of p) (increment_type_of p) = inr new
    /\ version_shaped new /\ new <> current_of p.
Proof.
  apply increment_version_changes.
  - apply current_version_of_shaped.
  - apply parse_commit_message_for_increment_cases.
Qed.

Ltac step_update lemma :=
  match goal with
  | |- context [update_version_file ?path ?v ?q] =>
      rewrite (lemma path v q)
  end.

(** Past the loop guard and without a failing system call, the script writes
    the next version and exits with status 0. *)
Lemma main_changed (p : proc) (new : str) :
  budget p = None -> update_can_write (version_file_path_of p) p ->
  should_skip_version_update (commit_message_of p) = false ->
  increment_version (current_of p) (increment_type_of p) = inr new ->
  new <> current_of p ->
  let path := version_file_path_of p in
  fst (main p) = inl (SystemExit 0)
  /\ files (snd (main p)) = written (files p) path (new_content (files p path) new).
Proof.
  intros Hb (Hm & Hr & Ho & Hw) Hs Hi Hne path.
  unfold current_of, increment_type_of in *. subst path.
  destruct p as [f env g me re oe we out b]; simpl in *; subst.
  unfold main. exec. step_read. exec. step_git. exec.
  rewrite Hs. exec. rewrite Hi. exec.
  rewrite update_ok by (repeat split; assumption || reflexivity). exec.
  destruct (str_eqb _ new) eqn:E.
  - apply str_eqb_eq in E. congruence.
  - exec. now split.
Qed.

(** Where the parent directory cannot be created, the [OSError] of [mkdir]
    leaves [main] uncaught. *)
Lemma main_mkdir_fails (p : proc) (msg : str) :
  budget p = None ->
  should_skip_version_update (commit_message_of p) = false ->
  mkdir_error p = Some msg ->
  fst (main p) = inl (OSError msg) /\ files (snd (main p)) = files p.
Proof.
  intros Hb Hs Hm.
  destruct (next_version_exists p) as (new & Hi & _ & _).
  unfold current_of, increment_type_of in *.
  destruct p as [f env g me re oe we out b]; simpl in *; subst.
  unfold main. exec. step_read. exec. step_git. exec.
  rewrite Hs. exec. rewrite Hi. exec.
  rewrite (update_mkdir_fails _ _ msg) by reflexivity. now split.
Qed.

Lemma main_failed (p : proc) :
  budget p = None ->
  should_skip_version_update (commit_message_of p) = false ->
  mkdir_error p = None -> update_fails p ->
  fst (main p) = inl (SystemExit 1).
Proof.
  intros Hb Hs Hm Hf.
  destruct (next_version_exists p) as (new & Hi & _ & _).
  unfold current_of, increment_type_of, update_fails in *.
  destruct p as [f env g me re oe we out b]; simpl in *; subst.
  unfold main. exec. step_read. exec. step_git. exec.
  rewrite Hs. exec. rewrite Hi. exec.
  set (path := match env with Some v => v | None => "__version__.py" end) in *.
  destruct (f path) as [content|] eqn:Ef.
  - destruct re as [msg|].
    + rewrite (update_read_fails _ _ content msg) by assumption || reflexivity.
      reflexivity.
    + destruct oe as [msg|].
      * rewrite (update_open_fails _ _ msg) by (auto || reflexivity). reflexivity.
      * destruct we as [msg|].
        -- rewrite (update_write_fails _ _ msg) by (auto || reflexivity). reflexivity.
        -- exfalso. intuition congruence.
  - destruct oe as [msg|].
    + rewrite (update_open_fails _ _ msg) by (auto || reflexivity). reflexivity.
    + destruct we as [msg|].
      * rewrite (update_write_fails _ _ msg) by (auto || reflexivity). reflexivity.
      * exfalso. intuition congruence.
Qed.

(** An uninterrupted run ends in [sys.exit(0)], in [sys.exit(1)], or in the
    uncaught [OSError] of [mkdir]. *)
Lemma main_terminations (p : proc) :
  budget p = None ->
  fst (run_main p) = Exited 0 \/ fst (run_main p) = Exited 1
  \/ exists msg, mkdir_error p = Some msg /\ fst (run_main p) = Crashed (OSError msg).
Proof.
  intros Hb. unfold run_main.
  destruct (should_skip_version_update (commit_message_of p)) eqn:Hs.
  - destruct (main_skip p Hb Hs) as [E _]. destruct (main p) as [r p'].
    simpl in *. subst. now left.
  - destruct (mkdir_error p) as [msg|] eqn:Hm.
    + destruct (main_mkdir_fails p msg Hb Hs Hm) as [E _]. destruct (main p) as [r p'].
      simpl in *. subst. right; right. now exists msg.
    + destruct (next_version_exists p) as (new & Hi & _ & Hne).
      assert (update_can_write (version_file_path_of p) p \/ update_fails p)
        as [Hok | Hf].
      { unfold update_can_write, update_fails.
        destruct (files p (version_file_path_of p)), (read_error p), (open_error p),
          (write_error p); try (left; now auto);
          right; intuition congruence. }
      * destruct (main_changed p new Hb Hok Hs Hi Hne) as [E _].
        destruct (main p) as [r p']. simpl in *. subst. now left.
      * pose proof (main_failed p Hb Hs Hm Hf) as E.
        destruct (main p) as [r p']. simpl in *. subst. right; now left.
Qed.

(** ** Further facts used by the properties *)


Lemma run_main_snd (p : proc) : snd (run_main p) = snd (main p).
Proof. unfold run_main. now destruct (main p). Qed.



(** Reading after writing returns the version written, whatever the file
    held before. *)
Lemma read_after_write (path v : str) (p : proc) :
  version_shaped v -> budget p = None -> update_can_write path p ->
  read_error p = None ->
  let p1 := snd (update_version_file path v p) in
  fst (update_version_file path v p) = inr true
  /\ files p1 path = Some (new_content (files p path) v)
  /\ read_current_version path p1 = (inr v, p1).
Proof.
  intros Hv Hb Hw Hr p1. subst p1. rewrite (update_ok path v p Hb Hw). cbn [fst snd].
  split; [reflexivity|]. split.
  - destruct p; cbn. apply written_same.
  - apply read_found with (content := new_content (files p path) v).
    + now destruct p.
    + destruct p; cbn. apply written_same.
    + now destruct p.
    + now apply search_version_new_content.
Qed.

(** An increment type outside the three raises. *)
Lemma increment_version_invalid_type (v ty : str) :
  ty <> "major" -> ty <> "minor" -> ty <> "patch" ->
  exists e, increment_version v ty = inl (ValueError e).
Proof.
  intros H1 H2 H3. unfold increment_version.
  destruct (version_parts v) as [e | [[a b] c]] eqn:E.
  - unfold version_parts in E.
    destruct (negb _); [injection E as <-; eauto|].
    destruct (map Py.int _) as [|[?|] [|[?|] [|[?|] [|? ?]]]]; try discriminate;
      injection E as <-; eauto.
  - destruct (str_eqb ty "major") eqn:E1; [apply str_eqb_eq in E1; congruence|].
    destruct (str_eqb ty "minor") eqn:E2; [apply str_eqb_eq in E2; congruence|].
    destruct (str_eqb ty "patch") eqn:E3; [apply str_eqb_eq in E3; congruence|].
    eauto.
Qed.

(** [main] never ends in the [ValueError] of [increment_version]: on what
    [main] passes to it, [increment_version] returns. *)
Lemma main_no_ValueError (p : proc) (msg : str) :
  budget p = None -> fst (run_main p) <> Crashed (ValueError msg).
Proof.
  intros Hb H. destruct (main_terminations p Hb) as [E | [E | (m & _ & E)]];
    rewrite E in H; discriminate.
Qed.


(** *** The one-assignment file *)








(** ** The properties of the specification *)

(** *** C4: the increment *)




(** *** C5: the classification of a commit message *)




(** *** C6: the loop guard *)

(** C6.  [should_skip_version_update] returns true exactly for the messages
    that mention a loop-guard phrase ([auto-increment version] or
    [chore: auto-increment], in any letter case) and mention none of the
    three markers; a marker in a loop-guard message therefore overrides the
    guard. *)
Theorem C6_should_skip_iff (msg : str) :
  (should_skip_version_update msg = true
   <-> (mentions "auto-increment version" msg \/ mentions "chore: auto-increment" msg)
       /\ ~ mentions "[major]" msg /\ ~ mentions "[minor]" msg
       /\ ~ mentions "[patch]" msg)
  /\ (mentions "[major]" msg \/ mentions "[minor]" msg \/ mentions "[patch]" msg ->
      should_skip_version_update msg = false).
Proof.
  unfold should_skip_version_update. cbn [existsb].
  rewrite <- !contains_lower_false, <- !contains_lower_iff.
  destruct (Py.contains "auto-increment version" (Py.lower msg)),
    (Py.contains "chore: auto-increment" (Py.lower msg)),
    (Py.contains "[major]" (Py.lower msg)),
    (Py.contains "[minor]" (Py.lower msg)),
    (Py.contains "[patch]" (Py.lower msg)); simpl; intuition congruence.
Qed.

Lemma C6_witness :
  should_skip_version_update "chore: auto-increment version [Patch]" = false.
Proof.
  apply (C6_should_skip_iff "chore: auto-increment version [Patch]").
  right; right. exists "chore: auto-increment version ", "[Patch]", [].
  split; reflexivity.
Defined.

(** *** C1 and C7: what [update_version_file] writes *)

(** C1 (defect of the code).  On a file that exists and holds no assignment,
    [update_version_file] does not append: the file ends up holding the
    assignment line alone, and the text it held is gone. *)
Theorem C1_file_without_assignment_is_overwritten :
  let p := quiet (Some ("# header" ++ [nl])) [] in
  let r := update_version_file "__version__.py" "1.0.0" p in
  fst r = inr true
  /\ files (snd r) "__version__.py" = Some (assignment "1.0.0" ++ [nl])
  /\ Py.contains "# header" (assignment "1.0.0" ++ [nl]) = false.
Proof. vm_compute. repeat split. Qed.

(** C7 (defect of the code).  Writing the version that the file already
    holds: the version reads back, but the text around the assignment is
    gone, because a substitution that changes nothing is taken for a missing
    assignment. *)
Theorem C7_rewriting_the_same_version_drops_content :
  let old := "# header" ++ [nl] ++ assignment "1.0.0" ++ [nl] ++ "# footer" ++ [nl] in
  let p := quiet (Some old) [] in
  let p1 := snd (update_version_file "__version__.py" "1.0.0" p) in
  files p1 "__version__.py" = Some (assignment "1.0.0" ++ [nl])
  /\ fst (read_current_version "__version__.py" p1) = inr "1.0.0"
  /\ Py.contains "# header" (assignment "1.0.0" ++ [nl]) = false.
Proof. vm_compute. repeat split. Qed.

(** *** C2: the exit status *)




(** *** C3: errors and crashes *)

(** C3 (defect of the code).  Where the parent directory of the version file
    cannot be created, [mkdir] raises outside the [try] block of
    [update_version_file]; nothing catches the exception, and the script
    ends in a traceback instead of reporting a failed update. *)
Theorem C3_mkdir_error_is_uncaught :
  let p := Proc (fun _ => None) (Some "README.md/__version__.py")
                (GitOutput "fix bug") (Some "[Errno 17] File exists: 'README.md'")
                None None None [] None in
  fst (run_main p) = Crashed (OSError "[Errno 17] File exists: 'README.md'")
  /\ stdout (snd (run_main p))
     = ["Current version: 0.0.0"; "Commit message: fix bug...";
        "Increment type: patch"; "New version: 0.0.1"].
Proof. vm_compute. split; reflexivity. Qed.

(** *** C8: reading a missing or unparsable file *)



(** *** C9: interruption and failure during the write *)




(** *** C10: what [read_current_version] hands to [increment_version] *)



(** ** Which files a computation can change *)

Lemma touches_ret (path : str) {A} (a : A) : touches_only path (ret a).
Proof. intros p q _. reflexivity. Qed.

Lemma touches_raise (path : str) {A} (e : exn) : touches_only path (@raise A e).
Proof. intros p q _. reflexivity. Qed.

Lemma touches_lift (path : str) {A} (r : exn + A) : touches_only path (lift r).
Proof. intros p q _. reflexivity. Qed.

Lemma touches_bind (path : str) {A B} (m : M A) (k : A -> M B) :
  touches_only path m -> (forall a, touches_only path (k a)) ->
  touches_only path (bind m k).
Proof.
  intros Hm Hk p q Hq. unfold bind. specialize (Hm p q Hq).
  destruct (m p) as [[e | a] p']; cbn [snd] in *.
  - exact Hm.
  - now rewrite (Hk a p' q Hq).
Qed.

Lemma touches_try (path : str) {A} (body : M A) (handler : exn -> M A) :
  touches_only path body -> (forall e, touches_only path (handler e)) ->
  touches_only path (try_except body handler).
Proof.
  intros Hb Hh p q Hq. unfold try_except. specialize (Hb p q Hq).
  destruct (body p) as [[e | a] p']; cbn [snd] in *.
  - destruct (is_Exception e); [now rewrite (Hh e p' q Hq) | exact Hb].
  - exact Hb.
Qed.

Lemma touches_effect (path : str) {A} (f : M A) :
  touches_only path f -> touches_only path (effect f).
Proof.
  intros Hf p q Hq. unfold effect. destruct (budget p) as [[|n]|].
  - reflexivity.
  - now rewrite (Hf _ q Hq).
  - now apply Hf.
Qed.

Lemma touches_print (path line : str) : touches_only path (print line).
Proof. apply touches_effect. intros p q _. reflexivity. Qed.

Lemma touches_path_exists (path path' : str) : touches_only path (path_exists path').
Proof. apply touches_effect. intros p q _. reflexivity. Qed.

Lemma touches_mkdir_parent (path path' : str) : touches_only path (mkdir_parent path').
Proof. apply touches_effect. intros p q _. cbn. now destruct (mkdir_error p). Qed.

Lemma touches_read_text (path path' : str) : touches_only path (read_text path').
Proof.
  apply touches_effect. intros p q _. cbn.
  destruct (read_error p); [reflexivity|]. now destruct (files p path').
Qed.

Lemma touches_run_git_log (path : str) : touches_only path run_git_log.
Proof. apply touches_effect. intros p q _. reflexivity. Qed.

Lemma touches_open_w (path : str) : touches_only path (open_w path).
Proof.
  apply touches_effect. intros p q Hq. cbn.
  destruct (open_error p); [reflexivity|]. cbn. now apply store_other.
Qed.

Lemma touches_write_close (path data : str) : touches_only path (write_close path data).
Proof.
  apply touches_effect. intros p q Hq. cbn.
  destruct (write_error p); [reflexivity|]. cbn. now apply store_other.
Qed.

Ltac touches :=
  repeat first
    [ apply touches_bind; [|intros ?]
    | apply touches_try; [|intros ?]
    | apply touches_ret | apply touches_raise | apply touches_lift
    | apply touches_print | apply touches_path_exists | apply touches_mkdir_parent
    | apply touches_read_text | apply touches_run_git_log
    | apply touches_open_w | apply touches_write_close
    | match goal with
      | |- touches_only _ (if ?b then _ else _) => destruct b
      | |- touches_only _ (match ?x with _ => _ end) => destruct x
      end ].

Lemma touches_read_current_version (path path' : str) :
  touches_only path (read_current_version path').
Proof. unfold read_current_version. touches. Qed.

Lemma touches_get_latest_commit_message (path : str) :
  touches_only path get_latest_commit_message.
Proof. unfold get_latest_commit_message. touches. Qed.

Lemma touches_update_version_file (path v : str) :
  touches_only path (update_version_file path v).
Proof. unfold update_version_file. touches. Qed.

Lemma touches_create_version_file (path v : str) :
  touches_only path (create_version_file path v).
Proof. unfold create_version_file. touches. Qed.

Lemma touches_set_version (path v : str) : touches_only path (set_version path v).
Proof. unfold set_version. touches. Qed.

Lemma touches_read_version (path path' : str) : touches_only path (read_version path').
Proof. unfold read_version. touches. Qed.

Lemma touches_main (p : proc) (q : str) :
  q <> version_file_path_of p -> files (snd (main p)) q = files p q.
Proof.
  intros Hq. unfold main.
  unfold bind at 1. unfold environ_get_version_file at 1. cbv beta iota.
  fold (version_file_path_of p).
  revert p q Hq.
  assert (forall path, @touches_only path unit
            (current_version <- read_current_version path;;
             print ("Current version: " ++ current_version);;
             commit_message <- get_latest_commit_message;;
             (if should_skip_version_update commit_message
              then print "Skipping version update - commit appears to be an auto-version update";;
                   sys_exit 0
              else ret tt);;
             print ("Commit message: " ++ firstn 50 commit_message ++ "...");;
             print ("Increment type: " ++ parse_commit_message_for_increment commit_message);;
             new_version <- lift (increment_version current_version
                                    (parse_commit_message_for_increment commit_message));;
             print ("New version: " ++ new_version);;
             updated <- update_version_file path new_version;;
             (if updated
              then print ("Successfully updated " ++ path ++ " to version " ++ new_version);;
                   (if negb (str_eqb current_version new_version)
                    then sys_exit 0 else sys_exit 1)
              else print "Failed to update version file";; sys_exit 1))) as H.
  { intros path. unfold sys_exit.
    apply touches_bind; [apply touches_read_current_version | intros cur].
    apply touches_bind; [apply touches_print | intros _].
    apply touches_bind; [apply touches_get_latest_commit_message | intros msg].
    apply touches_bind; [touches | intros _].
    apply touches_bind; [apply touches_print | intros _].
    apply touches_bind; [apply touches_print | intros _].
    apply touches_bind; [apply touches_lift | intros new].
    apply touches_bind; [apply touches_print | intros _].
    apply touches_bind; [apply touches_update_version_file | intros updated].
    touches. }
  intros p q Hq. apply (H (version_file_path_of p) p q Hq).
Qed.

(** ** Facts for the further properties *)








(** *** The setup tool and the stress test *)


Lemma create_missing (path init : str) (p : proc) :
  budget p = None -> files p path = None ->
  mkdir_error p = None -> open_error p = None -> write_error p = None ->
  create_version_file path init p
  = (inr true,
     with_stdout (with_files p (written (files p) path (assignment init ++ [nl])))
       (stdout p ++ [check_mark ++ " Created version file at " ++ path
                       ++ " with version " ++ init])).
Proof.
  intros Hb Hf Hm Ho Hw. destruct p as [f env g me re oe we out b]; simpl in *; subst.
  unfold create_version_file. repeat (progress exec || rewrite Hf). reflexivity.
Qed.

Lemma set_version_ok (path v : str) (p : proc) :
  budget p = None ->
  mkdir_error p = None -> open_error p = None -> write_error p = None ->
  set_version path v p
  = (inr true, with_files p (written (files p) path (assignment v ++ [nl]))).
Proof.
  intros Hb Hm Ho Hw. destruct p as [f env g me re oe we out b]; simpl in *; subst.
  unfold set_version. exec. reflexivity.
Qed.

Lemma read_version_run (path : str) (p : proc) :
  budget p = None ->
  fst (read_version path p) = inr (current_version_of path p)
  /\ files (snd (read_version path p)) = files p.
Proof.
  intros Hb. destruct p as [f env g me re oe we out b]; simpl in *; subst.
  unfold read_version, current_version_of. exec.
  destruct (f path) as [content|] eqn:Hf; repeat (progress exec || rewrite Hf);
    [|now split].
  destruct re; exec; [now split|].
  destruct (search_version content); now split.
Qed.

Lemma read_current_version_value (path : str) (p : proc) :
  budget p = None ->
  fst (read_current_version path p) = inr (current_version_of path p)
  /\ files (snd (read_current_version path p)) = files p.
Proof.
  intros Hb. destruct (read_current_version_run path p Hb) as [out E]. rewrite E.
  split; [reflexivity|]. now destruct p.
Qed.

(** The two renderings of an incremented version are the same text. *)
Lemma format_major (a : Z) : format_version a 0 0 = Py.str_of_int a ++ ".0.0".
Proof. reflexivity. Qed.

Lemma format_minor (a b : Z) :
  format_version a b 0 = Py.str_of_int a ++ "." ++ Py.str_of_int b ++ ".0".
Proof. reflexivity. Qed.

(** [unpack3] returns exactly on three values that are all there. *)
Lemma unpack3_inr (values : list (option Z)) (t : Z * Z * Z) :
  unpack3 values = inr t <->
  exists a b c, values = [Some a; Some b; Some c] /\ t = (a, b, c).
Proof.
  split.
  - destruct values as [|[a|] [|[b|] [|[c|] [|[d|] l]]]]; cbn; intros H;
      try discriminate. injection H as <-. now exists a, b, c.
  - intros (a & b & c & -> & ->). reflexivity.
Qed.

Lemma version_parts_inr (v : str) (t : Z * Z * Z) :
  version_parts v = inr t <->
  exists a b c, map Py.int (Py.split "." v) = [Some a; Some b; Some c] /\ t = (a, b, c).
Proof.
  unfold version_parts. split.
  - destruct (length (Py.split "." v) =? 3) eqn:El; cbn [negb]; [|discriminate].
    destruct (map Py.int (Py.split "." v)) as [|[a|] [|[b|] [|[c|] [|d l]]]];
      intros H; try discriminate. injection H as <-. now exists a, b, c.
  - intros (a & b & c & E & ->).
    assert (length (Py.split "." v) = 3) as El.
    { rewrite <- (length_map Py.int), E. reflexivity. }
    rewrite El, E. reflexivity.
Qed.

Lemma unpack3_version_parts (v : str) (t : Z * Z * Z) :
  unpack3 (map Py.int (Py.split "." v)) = inr t <-> version_parts v = inr t.
Proof. now rewrite unpack3_inr, version_parts_inr. Qed.

(** *** More on [main] and on the search *)





(** ** Further properties of the code *)

(** X1.  Round trip of the version manager: after a successful
    [update_version_file] with a well-shaped version, whatever the file held
    before, [read_current_version] returns that version. *)
Theorem X1_read_after_update (path v : str) (p : proc) :
  version_shaped v -> budget p = None -> update_can_write path p ->
  read_error p = None ->
  fst (update_version_file path v p) = inr true
  /\ fst (read_current_version path (snd (update_version_file path v p))) = inr v.
Proof.
  intros Hv Hb Hw Hr.
  destruct (read_after_write path v p Hv Hb Hw Hr) as (E1 & _ & E2).
  split; [exact E1 | now rewrite E2].
Qed.

Lemma X1_witness :
  let p := quiet (Some ("# header" ++ [nl] ++ "__version__='0.9.9'" ++ [nl])) [] in
  fst (update_version_file "__version__.py" "2.10.0" p) = inr true
  /\ fst (read_current_version "__version__.py"
            (snd (update_version_file "__version__.py" "2.10.0" p))) = inr "2.10.0".
Proof.
  intros p. apply (X1_read_after_update "__version__.py" "2.10.0" p).
  - exists "2", "10", "0". repeat split; discriminate || reflexivity.
  - reflexivity.
  - repeat split; try reflexivity. now right.
  - reflexivity.
Defined.







(** X6.  An increment type other than the exact lower-case words major,
    minor and patch makes [increment_version] raise a [ValueError], whatever
    the version text. *)
Theorem X6_invalid_increment_type_raises (v ty : str) :
  ty <> "major" -> ty <> "minor" -> ty <> "patch" ->
  exists msg, increment_version v ty = inl (ValueError msg).
Proof. apply increment_version_invalid_type. Qed.

Lemma X6_witness : exists msg, increment_version "1.2.3" "Major" = inl (ValueError msg).
Proof. apply (X6_invalid_increment_type_raises "1.2.3" "Major"); discriminate. Defined.



(** X8.  [main] changes no file other than the version file, however it
    ends: interrupted, failing or not. *)
Theorem X8_main_touches_only_the_version_file (p : proc) (q : str) :
  q <> version_file_path_of p -> files (snd (run_main p)) q = files p q.
Proof. intros Hq. rewrite run_main_snd. now apply touches_main. Qed.

Lemma X8_witness :
  let p := Proc (fun q => if str_eq_dec q "README.md" then Some "# readme" else None)
                None (GitOutput "fix [minor]") None None None None [] (Some 9) in
  files (snd (run_main p)) "README.md" = Some "# readme".
Proof.
  intros p. apply (X8_main_touches_only_the_version_file p "README.md"). discriminate.
Defined.













(** X15.  Setup and version manager compose: the file that
    [create_version_file] creates reads back, with [read_current_version],
    as the initial version it was given; with the default that is 0.0.0. *)
Theorem X15_created_file_reads_back (path init : str) (p : proc) :
  version_shaped init -> budget p = None -> files p path = None ->
  mkdir_error p = None -> open_error p = None -> write_error p = None ->
  read_error p = None ->
  fst (read_current_version path (snd (create_version_file path init p))) = inr init.
Proof.
  intros Hv Hb Hf Hm Ho Hw Hr.
  rewrite (create_missing path init p Hb Hf Hm Ho Hw). cbn [snd].
  rewrite (read_found path (assignment init ++ [nl]) init).
  - reflexivity.
  - now destruct p.
  - destruct p; cbn. apply written_same.
  - now destruct p.
  - now apply search_version_assignment.
Qed.

Lemma X15_witness :
  fst (read_current_version "__version__.py"
         (snd (create_version_file "__version__.py" default_initial_version
                 (quiet None []))))
  = inr "0.0.0".
Proof.
  apply (X15_created_file_reads_back "__version__.py" default_initial_version
           (quiet None [])); try reflexivity.
  apply zero_version_shaped.
Defined.

(** X16.  The reader of the stress test returns what the reader of the
    version manager returns, on every file and with every read failure, and
    leaves the files alone. *)
Theorem X16_read_version_agrees (path : str) (p : proc) :
  budget p = None ->
  fst (read_version path p) = fst (read_current_version path p)
  /\ files (snd (read_version path p)) = files p.
Proof.
  intros Hb. destruct (read_version_run path p Hb) as [E1 E2].
  destruct (read_current_version_value path p Hb) as [E3 _].
  split; congruence.
Qed.

Lemma X16_witness :
  let p := quiet (Some ("__version__ =" ++ [squote] ++ "3.4.5" ++ [squote])) [] in
  fst (read_version "__version__.py" p) = fst (read_current_version "__version__.py" p)
  /\ files (snd (read_version "__version__.py" p)) = files p.
Proof. intros p. apply (X16_read_version_agrees "__version__.py" p). reflexivity. Defined.

(** X17.  [set_version] replaces the whole file by the assignment line,
    whatever the file held, and [read_version] then returns the version
    set. *)
Theorem X17_set_version_round_trip (path v : str) (p : proc) :
  version_shaped v -> budget p = None ->
  mkdir_error p = None -> open_error p = None -> write_error p = None ->
  read_error p = None ->
  fst (set_version path v p) = inr true
  /\ files (snd (set_version path v p)) path = Some (assignment v ++ [nl])
  /\ fst (read_version path (snd (set_version path v p))) = inr v.
Proof.
  intros Hv Hb Hm Ho Hw Hr. rewrite (set_version_ok path v p Hb Hm Ho Hw). cbn [fst snd].
  split; [reflexivity|]. split.
  - destruct p; cbn. apply written_same.
  - destruct (read_version_run path
                (with_files p (written (files p) path (assignment v ++ [nl]))))
      as [E _]; [now destruct p|].
    rewrite E. unfold current_version_of.
    assert (files (with_files p (written (files p) path (assignment v ++ [nl]))) path
            = Some (assignment v ++ [nl])) as Hf
        by (destruct p; apply written_same).
    assert (read_error (with_files p (written (files p) path (assignment v ++ [nl])))
            = None) as Hr' by (destruct p; exact Hr).
    now rewrite Hf, Hr', search_version_assignment.
Qed.

Lemma X17_witness :
  let p := quiet (Some "anything at all") [] in
  fst (set_version "__version__.py" "9.9.9" p) = inr true
  /\ files (snd (set_version "__version__.py" "9.9.9" p)) "__version__.py"
     = Some (assignment "9.9.9" ++ [nl])
  /\ fst (read_version "__version__.py" (snd (set_version "__version__.py" "9.9.9" p)))
     = inr "9.9.9".
Proof.
  intros p. apply (X17_set_version_round_trip "__version__.py" "9.9.9" p);
    try reflexivity.
  exists "9", "9", "9". repeat split; discriminate || reflexivity.
Defined.

(** X18.  The oracle of the stress test agrees with the implementation: for
    each of the three increment types, [calculate_expected_version] returns
    a version exactly when [increment_version] returns it. *)
Theorem X18_expected_version_agrees (v ty new : str) :
  ty = "major" \/ ty = "minor" \/ ty = "patch" ->
  calculate_expected_version v ty = inr new <-> increment_version v ty = inr new.
Proof.
  intros Hty. unfold calculate_expected_version, increment_version.
  destruct (version_parts v) as [e | [[a b] c]] eqn:Ev.
  - destruct (unpack3 (map Py.int (Py.split "." v))) as [e' | t] eqn:Eu.
    + split; discriminate.
    + apply unpack3_version_parts in Eu. congruence.
  - apply unpack3_version_parts in Ev. rewrite Ev.
    destruct Hty as [-> | [-> | ->]]; cbn [str_eqb]; reflexivity.
Qed.

Lemma X18_witness :
  calculate_expected_version "1.2.3" "minor" = inr "1.3.0"
  <-> increment_version "1.2.3" "minor" = inr "1.3.0".
Proof.
  apply (X18_expected_version_agrees "1.2.3" "minor" "1.3.0"). right. now left.
Defined.










